(** * Stack Overflow Answer Validator: a shallow embedding

    The program (stack_overflow_validator.py) is a handful of regular
    expression searches folded into a verdict.  Its regular expressions are
    embedded as syntax trees run by a backtracking matcher that follows the
    priority rules of Python's [re] module (leftmost match, greedy and lazy
    repetition, optional groups, word boundaries, one capturing group).

    Characters are Rocq's [ascii] read as the code points below 256, with
    Python's classification of them; texts are lists of characters.
    Integers are unbounded, as Python's are; [int] on a string keeps the
    limit CPython puts by default on the number of digits it converts. *)

From Stdlib Require Import Ascii String DecimalString.
From Stdlib Require Import List ZArith Lia Bool Arith.
Import ListNotations.

(** ** Texts *)

Definition text := list ascii.

Definition str (s : string) : text := list_ascii_of_string s.

Definition nl : ascii := "010"%char.

Definition code (c : ascii) : nat := nat_of_ascii c.

Definition between (lo hi n : nat) : bool := (lo <=? n) && (n <=? hi).

(** [\d] on a str pattern: the decimal digits (below 256, only 0-9). *)
Definition is_digit (c : ascii) : bool := between 48 57 (code c).

(** [\w] on a str pattern: [c.isalnum() or c == '_'] (below 256). *)
Definition is_word (c : ascii) : bool :=
  let n := code c in
  between 48 57 n || between 65 90 n || (n =? 95) || between 97 122 n
  || (n =? 170) || (n =? 178) || (n =? 179) || (n =? 181) || (n =? 185)
  || (n =? 186) || between 188 190 n || between 192 214 n
  || between 216 246 n || between 248 255 n.

(** The whitespace [int] strips around a literal (below 256): tab to
    carriage return, the space, U+0085 and U+00A0. *)
Definition is_space (c : ascii) : bool :=
  let n := code c in
  between 9 13 n || (n =? 32) || (n =? 133) || (n =? 160).

Definition digit_value (c : ascii) : Z := Z.of_nat (code c - 48).

(** [sep.join(parts)] *)
Fixpoint join (sep : text) (parts : list text) : text :=
  match parts with
  | [] => []
  | [p] => p
  | p :: rest => p ++ sep ++ join sep rest
  end.

(** [str(n)] for an int *)
Definition str_of_int (z : Z) : text :=
  str (NilZero.string_of_int (Z.to_int z)).

(** ** Regular expressions *)

Module Re.

(** The character sets the program's patterns use. *)
Inductive cset : Type :=
| Dot     (* [.] under re.DOTALL: every character *)
| Digit   (* [\d] *)
| Word.   (* [\w] *)

Definition mem (k : cset) (c : ascii) : bool :=
  match k with
  | Dot => true
  | Digit => is_digit c
  | Word => is_word c
  end.

Inductive regex : Type :=
| Eps
| Chr (c : ascii)
| WordB                                   (* [\b] *)
| Cat (r1 r2 : regex)
| Opt (r : regex)                         (* [(?:r)?], greedy *)
| Rep (lazy : bool) (min : nat) (k : cset) (* [k{min,}] or [k{min,}?] *)
| Group (r : regex).                      (* [(r)] *)

(** A literal string. *)
Fixpoint lit (s : text) : regex :=
  match s with
  | [] => Eps
  | c :: s' => Cat (Chr c) (lit s')
  end.

Fixpoint has_group (r : regex) : bool :=
  match r with
  | Group _ => true
  | Cat r1 r2 => has_group r1 || has_group r2
  | Opt r => has_group r
  | _ => false
  end.

(** What a successful match leaves: the text of the group (if one took
    part) and the input after the match. *)
Definition found : Type := (option text * text)%type.

(** A continuation receives the character before the current position, the
    remaining input and the group captured so far. *)
Definition cont : Type := option ascii -> text -> option text -> option found.

Definition final : cont := fun _ s g => Some (g, s).

Definition orelse (a : option found) (b : option found) : option found :=
  match a with
  | Some r => Some r
  | None => b
  end.

Definition word_before (prev : option ascii) : bool :=
  match prev with
  | Some c => is_word c
  | None => false
  end.

Definition word_after (s : text) : bool :=
  match s with
  | c :: _ => is_word c
  | [] => false
  end.

(** [\b]: exactly one side of the position is a word character. *)
Definition at_boundary (prev : option ascii) (s : text) : bool :=
  xorb (word_before prev) (word_after s).

(** Greedy repetition: take one more character first, fall back to
    stopping here once [min] characters have been taken. *)
Fixpoint rep_greedy (p : ascii -> bool) (min : nat) (prev : option ascii)
    (s : text) (g : option text) (k : cont) : option found :=
  let stop := if min =? 0 then k prev s g else None in
  match s with
  | c :: s' =>
      if p c then orelse (rep_greedy p (pred min) (Some c) s' g k) stop
      else stop
  | [] => stop
  end.

(** Lazy repetition: stop here first (once [min] characters have been
    taken), take one more character only if the rest then fails. *)
Fixpoint rep_lazy (p : ascii -> bool) (min : nat) (prev : option ascii)
    (s : text) (g : option text) (k : cont) : option found :=
  let stop := if min =? 0 then k prev s g else None in
  orelse stop
    match s with
    | c :: s' => if p c then rep_lazy p (pred min) (Some c) s' g k else None
    | [] => None
    end.

(** The backtracking matcher, in continuation-passing style. *)
Fixpoint run (r : regex) (prev : option ascii) (s : text) (g : option text)
    (k : cont) : option found :=
  match r with
  | Eps => k prev s g
  | Chr c =>
      match s with
      | x :: s' => if Ascii.eqb x c then k (Some x) s' g else None
      | [] => None
      end
  | WordB => if at_boundary prev s then k prev s g else None
  | Cat r1 r2 => run r1 prev s g (fun prev' s' g' => run r2 prev' s' g' k)
  | Opt r1 => orelse (run r1 prev s g k) (k prev s g)
  | Rep lazy min cs =>
      (if lazy then rep_lazy else rep_greedy) (mem cs) min prev s g k
  | Group r1 =>
      run r1 prev s g
        (fun prev' s' _ =>
           k prev' s' (Some (firstn (length s - length s') s)))
  end.

(** A match anchored at the current position. *)
Definition match_here (r : regex) (prev : option ascii) (s : text)
  : option found :=
  run r prev s None final.

(** The text of the whole match, given what is left after it. *)
Definition consumed (s rest : text) : text :=
  firstn (length s - length rest) s.

(** [re.search]: the first position, from the left, with a match. *)
Fixpoint search_from (r : regex) (prev : option ascii) (s : text)
  : option found :=
  match match_here r prev s with
  | Some m => Some m
  | None =>
      match s with
      | c :: s' => search_from r (Some c) s'
      | [] => None
      end
  end.

Definition search (r : regex) (s : text) : option found :=
  search_from r None s.

(** What [re.findall] reports for one match: the group when the pattern
    has one (the empty string if it took no part), the whole match
    otherwise. *)
Definition item (r : regex) (s : text) (m : found) : text :=
  if has_group r
  then match fst m with Some g => g | None => [] end
  else consumed s (snd m).

(** [re.findall]: the matches from left to right, none overlapping.
    [skip] counts the characters of the last match still to step over.
    Every pattern of this program consumes at least three characters; the
    special treatment Python gives to empty matches is not modelled. *)
Fixpoint findall_from (r : regex) (skip : nat) (prev : option ascii)
    (s : text) : list text :=
  match skip with
  | S n =>
      match s with
      | c :: s' => findall_from r n (Some c) s'
      | [] => []
      end
  | 0 =>
      match match_here r prev s with
      | Some m =>
          item r s m ::
          match s with
          | c :: s' =>
              findall_from r (length (consumed s (snd m)) - 1) (Some c) s'
          | [] => []
          end
      | None =>
          match s with
          | c :: s' => findall_from r 0 (Some c) s'
          | [] => []
          end
      end
  end.

Definition findall (r : regex) (s : text) : list text :=
  findall_from r 0 None s.

End Re.

Import Re.

(** ** Python values the program uses *)

Inductive exn : Type := ValueError | TypeError.

Inductive result (A : Type) : Type :=
| Ok (a : A)
| Raise (e : exn).

Arguments Ok {A} a.
Arguments Raise {A} e.

Fixpoint lstrip (s : text) : text :=
  match s with
  | c :: s' => if is_space c then lstrip s' else s
  | [] => []
  end.

Definition strip (s : text) : text := rev (lstrip (rev (lstrip s))).

(** The digits of a decimal literal, single underscores allowed between
    digits. *)
Fixpoint digits_value (acc : Z) (s : text) : option Z :=
  match s with
  | [] => Some acc
  | c :: s' =>
      if is_digit c then digits_value (10 * acc + digit_value c) s'
      else if Ascii.eqb c "_" then
        match s' with
        | d :: _ => if is_digit d then digits_value acc s' else None
        | [] => None
        end
      else None
  end.

(** [sys.get_int_max_str_digits()], which the program leaves at CPython's
    default. *)
Definition int_max_str_digits : nat := 4300.

(** The digits of a literal, its underscores left out. *)
Definition count_digits (ds : text) : nat := length (filter is_digit ds).

(** [int(s)] for a str: surrounding whitespace, an optional sign, digits.
    Anything else raises ValueError, and so does a literal of more than
    [int_max_str_digits] digits. *)
Definition int (s : text) : result Z :=
  let body := strip s in
  let '(sign, ds) :=
    match body with
    | c :: r =>
        if Ascii.eqb c "+" then (1%Z, r)
        else if Ascii.eqb c "-" then ((-1)%Z, r)
        else (1%Z, body)
    | [] => (1%Z, body)
    end in
  match ds with
  | c :: _ =>
      if is_digit c then
        match digits_value 0 ds with
        | Some v =>
            if int_max_str_digits <? count_digits ds then Raise ValueError
            else Ok (sign * v)%Z
        | None => Raise ValueError
        end
      else Raise ValueError
  | [] => Raise ValueError
  end.

(** [match.group(1)]: None when the group took no part. *)
Definition group1 (m : found) : option text := fst m.

(** [int(match.group(1))]: [int(None)] is a TypeError. *)
Definition int_group1 (m : found) : result Z :=
  match group1 m with
  | Some g => int g
  | None => Raise TypeError
  end.

(** [datetime.now()] *)
Record datetime : Type := {
  year : Z;
  month : Z;
  day : Z;
  hour : Z;
  minute : Z;
  second : Z;
  microsecond : Z
}.

(** The verdict is a dict from str keys to str values. *)
Definition dict := list (string * text).

Fixpoint get (key : string) (d : dict) : option text :=
  match d with
  | [] => None
  | (k, v) :: d' => if String.eqb k key then Some v else get key d'
  end.

(** ** The program *)

(** r'```(?:python)?\n(.*?)```' with re.DOTALL *)
Definition fence_re : regex :=
  Cat (lit (str "```"))
    (Cat (Opt (lit (str "python")))
       (Cat (Chr nl)
          (Cat (Group (Rep true 0 Dot)) (lit (str "```"))))).

Definition extract_code_blocks (t : text) : list text :=
  findall fence_re t.

(** r'print \w+' *)
Definition print_re : regex := Cat (lit (str "print ")) (Rep false 1 Word).

Definition msg_ttk : text := str "ttk is still fine, but are YOU?".
Definition msg_urllib2 : text :=
  str "Python 2 called, it wants its imports back".
Definition msg_stringio : text := str "This import is so old it has a pension".
Definition msg_md5 : text := str "MD5? More like M-Deprecated".
Definition msg_print : text :=
  str "Missing parentheses - the classic sign of vintage code".

Definition deprecated_patterns : list (regex * text) :=
  [ (lit (str "from tkinter import ttk"), msg_ttk);
    (lit (str "import urllib2"), msg_urllib2);
    (lit (str "from StringIO import"), msg_stringio);
    (lit (str "import md5"), msg_md5);
    (print_re, msg_print) ].

Definition matches (r : regex) (s : text) : bool :=
  match search r s with
  | Some _ => true
  | None => false
  end.

(** The loop of [check_imports] over a rule table. *)
Fixpoint scan_rules (rules : list (regex * text)) (code : text) : list text :=
  match rules with
  | [] => []
  | (pattern, message) :: rest =>
      if matches pattern code then message :: scan_rules rest code
      else scan_rules rest code
  end.

Definition check_imports (code : text) : list text :=
  scan_rules deprecated_patterns code.

(** r'\b\d{3,}\b' *)
Definition magic_re : regex := Cat WordB (Cat (Rep false 3 Digit) WordB).

Definition magic_prefix : text := str "Magic number(s) found: ".
Definition magic_suffix : text := str " - hope they're not port numbers".

Definition check_for_magic_numbers (code : text) : list text :=
  let magic_numbers := findall magic_re code in
  match magic_numbers with
  | [] => []
  | _ => [magic_prefix ++ join (str ", ") magic_numbers ++ magic_suffix]
  end.

(** The findings of one block. *)
Definition block_findings (code : text) : list text :=
  check_imports code ++ check_for_magic_numbers code.

(** The loop over [enumerate(code_blocks, i)]. *)
Fixpoint block_issues (i : nat) (code_blocks : list text) : list text :=
  match code_blocks with
  | [] => []
  | code :: rest =>
      match block_findings code with
      | [] => block_issues (S i) rest
      | issues =>
          (str "Block " ++ str_of_int (Z.of_nat i) ++ str ": "
             ++ join (str " | ") issues)
          :: block_issues (S i) rest
      end
  end.

(** r'stackoverflow\.com/questions/\d+/' *)
Definition url_re : regex :=
  Cat (lit (str "stackoverflow.com/questions/"))
    (Cat (Rep false 1 Digit) (Chr "/")).

(** r'questions/(\d+)/' *)
Definition qid_re : regex :=
  Cat (lit (str "questions/")) (Cat (Group (Rep false 1 Digit)) (Chr "/")).

Definition threshold : Z := 1000000.

Definition qid_issue (qid current_year : Z) : text :=
  str "Question ID " ++ str_of_int qid ++ str " looks ancient (like before "
    ++ str_of_int (current_year - 5) ++ str ")".

(** The truth value of a str: the empty string is falsy. *)
Definition truthy (s : text) : bool :=
  match s with
  | [] => false
  | _ :: _ => true
  end.

(** The issues the URL heuristic appends; [None] and the empty string are
    falsy, and skip it. *)
Definition url_issues (current_year : Z) (url : option text)
  : result (list text) :=
  match url with
  | Some u =>
      if truthy u && matches url_re u then
        match search qid_re u with
        | Some m =>
            match int_group1 m with
            | Ok qid =>
                if (qid <? threshold)%Z then Ok [qid_issue qid current_year]
                else Ok []
            | Raise e => Raise e
            end
        | None => Ok []
        end
      else Ok []
  | None => Ok []
  end.

Definition msg_no_code : text :=
  str "No code blocks found. Probably just philosophical advice about programming.".
Definition msg_header : text := str "Potential issues found:".
Definition advice_outdated : text :=
  str "Check library docs instead. Or just rewrite it yourself like a real developer.".
Definition msg_ok : text :=
  str "No obvious red flags. But remember: Stack Overflow answers age like milk.".
Definition advice_ok : text :=
  str "Test thoroughly before production. Or better yet, write your own solution.".

Definition SUSPICIOUS : text := str "SUSPICIOUS".
Definition PROBABLY_OUTDATED : text := str "PROBABLY_OUTDATED".
Definition MAYBE_OK : text := str "MAYBE_OK".

(** The verdict for a given issue list. *)
Definition verdict_of (all_issues : list text) : dict :=
  match all_issues with
  | [] =>
      [ ("status"%string, MAYBE_OK);
        ("message"%string, msg_ok);
        ("advice"%string, advice_ok) ]
  | _ =>
      [ ("status"%string, PROBABLY_OUTDATED);
        ("message"%string,
          msg_header ++ join (nl :: str "- ") ([] :: all_issues));
        ("advice"%string, advice_outdated) ]
  end.

(** [all_issues] as it stands after the URL heuristic. *)
Definition all_issues (now : datetime) (code_blocks : list text)
    (url : option text) : result (list text) :=
  match url_issues (year now) url with
  | Ok extra => Ok (block_issues 1 code_blocks ++ extra)
  | Raise e => Raise e
  end.

Definition validate_stackoverflow_answer (now : datetime) (answer_text : text)
    (url : option text) : result dict :=
  let code_blocks := extract_code_blocks answer_text in
  match code_blocks with
  | [] => Ok [ ("status"%string, SUSPICIOUS); ("message"%string, msg_no_code) ]
  | _ =>
      match all_issues now code_blocks url with
      | Ok issues => Ok (verdict_of issues)
      | Raise e => Raise e
      end
  end.

(** ** The command line

    [main] reads [sys.argv], a file or standard input, and the clock, and
    writes to standard output.  The world it runs in is a record; a run is
    what it has printed and the exception, if any, that ended it. *)

(** What ends a run of [main]: the exception of [open] or [read] on a file
    that cannot be opened or decoded (an OSError, a UnicodeDecodeError), a
    key missing from the verdict, or an exception of the validator.
    Standard input is taken to be readable and standard output to accept
    what is printed. *)
Inductive failure : Type :=
| ReadError
| KeyError (key : string)
| Validator (e : exn).

Record world : Type := {
  argv : list text;              (* sys.argv, the script name first *)
  files : text -> option text;   (* what open(path).read() returns; None
                                    when it raises *)
  stdin : text;                  (* what sys.stdin.read() returns *)
  clock : datetime               (* what datetime.now() returns *)
}.

Record run_of_main : Type := {
  stdout : text;
  raised : option failure
}.

(** [print(line)] after [out] has been printed. *)
Definition print (out line : text) : text := out ++ line ++ [nl].

Definition banner : text :=
  print (print [] (str "Stack Overflow Answer Validator")) (repeat "="%char 40).

Definition prompt : text :=
  str "Paste Stack Overflow answer (Ctrl+D when done):".

(** [sys.argv[2] if len(sys.argv) > 2 else None] *)
Definition url_argument (args : list text) : option text :=
  match args with
  | _ :: _ :: u :: _ => Some u
  | _ => None
  end.

(** The three prints of the verdict; [result[key]] raises KeyError on a
    missing key, and the advice is printed when the key is there. *)
Definition print_verdict (out : text) (verdict : dict) : run_of_main :=
  match get "status" verdict with
  | None => {| stdout := out; raised := Some (KeyError "status") |}
  | Some status =>
      let out := print out (nl :: str "Verdict: " ++ status) in
      match get "message" verdict with
      | None => {| stdout := out; raised := Some (KeyError "message") |}
      | Some message =>
          let out := print out message in
          match get "advice" verdict with
          | Some advice =>
              {| stdout := print out (nl :: str "Advice: " ++ advice);
                 raised := None |}
          | None => {| stdout := out; raised := None |}
          end
      end
  end.

(** The part of [main] that follows the reading of the answer. *)
Definition report (w : world) (out content : text) : run_of_main :=
  let url := url_argument (argv w) in
  match validate_stackoverflow_answer (clock w) content url with
  | Ok verdict => print_verdict out verdict
  | Raise e => {| stdout := out; raised := Some (Validator e) |}
  end.

Definition main (w : world) : run_of_main :=
  let out := banner in
  match argv w with
  | _ :: path :: _ =>
      match files w path with
      | Some content => report w out content
      | None => {| stdout := out; raised := Some ReadError |}
      end
  | _ => report w (print out prompt) (stdin w)
  end.

(** ** Vocabulary of the statements

    Plain list functions in which the behaviour of the patterns is stated:
    prefixes, the first closing fence, runs of characters, words. *)

Definition fence : text := str "```".

(** The two openings the extraction pattern accepts: a bare fence or a
    fence tagged [python], each closed by a newline. *)
Definition open_plain : text := fence ++ [nl].
Definition open_python : text := fence ++ str "python" ++ [nl].

Definition opening (o : text) : Prop := o = open_plain \/ o = open_python.

(** [strip_prefix l s]: what follows [l] at the head of [s]. *)
Fixpoint strip_prefix (l s : text) : option text :=
  match l with
  | [] => Some s
  | c :: l' =>
      match s with
      | x :: s' => if Ascii.eqb x c then strip_prefix l' s' else None
      | [] => None
      end
  end.

(** The character before the position reached after reading [l]. *)
Fixpoint last_prev (prev : option ascii) (l : text) : option ascii :=
  match l with
  | [] => prev
  | c :: l' => last_prev (Some c) l'
  end.

(** The text before the first closing fence, and the text after it. *)
Fixpoint split_fence (s : text) : option (text * text) :=
  match strip_prefix fence s with
  | Some r => Some ([], r)
  | None =>
      match s with
      | c :: s' =>
          match split_fence s' with
          | Some (b, r) => Some (c :: b, r)
          | None => None
          end
      | [] => None
      end
  end.

(** The body that follows an accepted opening at the head of [s]. *)
Definition open_body (s : text) : option text :=
  match strip_prefix open_python s with
  | Some b => Some b
  | None => strip_prefix open_plain s
  end.

(** No backtick occurs in [s]. *)
Definition backtick_free (s : text) : bool :=
  forallb (fun c => negb (Ascii.eqb c "`")) s.

(** [s] contains [l] as a substring. *)
Definition contains (l s : text) : Prop := exists a b, s = a ++ l ++ b.

(** The same, as a test. *)
Fixpoint occurs (l s : text) : bool :=
  match strip_prefix l s with
  | Some _ => true
  | None =>
      match s with
      | _ :: s' => occurs l s'
      | [] => false
      end
  end.

(** The closing fence that follows [c] is the first fence: none begins
    inside [c], not even one completed by the backticks of the closing
    fence. *)
Definition fence_free (c : text) : bool := negb (occurs fence (c ++ str "``")).

(** Two fences, the second after the end of the first. *)
Definition fence_pair (s : text) : Prop :=
  exists a b c, s = a ++ fence ++ b ++ fence ++ c.

(** The longest prefix of characters in [p], and the rest. *)
Fixpoint span (p : ascii -> bool) (s : text) : text * text :=
  match s with
  | c :: s' =>
      if p c then let '(a, b) := span p s' in (c :: a, b) else ([], s)
  | [] => ([], [])
  end.

Definition head_in (p : ascii -> bool) (s : text) : bool :=
  match s with
  | c :: _ => p c
  | [] => false
  end.

(** The words of a text: its maximal runs of word characters, in order. *)
Fixpoint words_from (cur : text) (s : text) : list text :=
  match s with
  | c :: s' =>
      if is_word c then words_from (cur ++ [c]) s'
      else match cur with
           | [] => words_from [] s'
           | _ => cur :: words_from [] s'
           end
  | [] => match cur with [] => [] | _ => [cur] end
  end.

Definition words (s : text) : list text := words_from [] s.

(** A standalone numeric token of three or more digits: a word made of
    digits only, at least three of them. *)
Definition numeric3 (w : text) : bool :=
  forallb is_digit w && (3 <=? length w).

Definition numeric_tokens (s : text) : list text := filter numeric3 (words s).

(** A run of digits closed by a slash: the digits and what follows the
    slash. *)
Definition id_segment (t : text) : option (text * text) :=
  match span is_digit t with
  | (d :: ds, c :: r) => if Ascii.eqb c "/" then Some (d :: ds, r) else None
  | _ => None
  end.

(** The question identifier read at the head of [s] by the second URL
    pattern, and by the first. *)
Definition qid_at (s : text) : option (text * text) :=
  match strip_prefix (str "questions/") s with
  | Some t => id_segment t
  | None => None
  end.

Definition url_at (s : text) : option (text * text) :=
  match strip_prefix (str "stackoverflow.com/questions/") s with
  | Some t => id_segment t
  | None => None
  end.

(** The first segment [questions/], digits, slash of a text: its digits and
    what follows its slash. *)
Fixpoint first_segment (s : text) : option (text * text) :=
  match qid_at s with
  | Some r => Some r
  | None =>
      match s with
      | _ :: s' => first_segment s'
      | [] => None
      end
  end.

(** A URL of the recognized shape whose first segment [questions/], digits,
    slash holds more digits than [int] converts. *)
Definition long_identifier (url : option text) : bool :=
  match url with
  | Some u =>
      matches url_re u &&
      match first_segment u with
      | Some (ds, _) => int_max_str_digits <? length ds
      | None => false
      end
  | None => false
  end.

(** At least one block is extracted from [t]. *)
Definition has_blocks (t : text) : bool :=
  match extract_code_blocks t with
  | [] => false
  | _ :: _ => true
  end.


(** The print rule matches at the head of [s]: [print], a space and a word
    character. *)
Definition print_at (s : text) : bool :=
  match strip_prefix (str "print ") s with
  | Some t => head_in is_word t
  | None => false
  end.

(** A language tag: a non-empty run of word characters. *)
Definition language_tag (tag : text) : Prop :=
  tag <> [] /\ forallb is_word tag = true.

Definition text_eq_dec : forall a b : text, {a = b} + {a <> b} :=
  list_eq_dec ascii_dec.

(** The value of a string of decimal digits. *)
Definition decimal_value (ds : text) : Z :=
  fold_left (fun acc c => (10 * acc + digit_value c)%Z) ds 0%Z.

(** What the heuristic adds for a URL whose identifier [int] converts: one
    issue when the URL is recognized and the number of its first segment
    is below the threshold. *)
Definition url_extra (current_year : Z) (url : option text) : list text :=
  match url with
  | Some u =>
      if matches url_re u then
        match first_segment u with
        | Some (ds, _) =>
            if (decimal_value ds <? threshold)%Z
            then [qid_issue (decimal_value ds) current_year]
            else []
        | None => []
        end
      else []
  | None => []
  end.

(** The answer [main] gets to read, if any: the file named by the first
    argument, or standard input when there is no argument. *)
Definition answer_read (w : world) : option text :=
  match argv w with
  | _ :: path :: _ => files w path
  | _ => Some (stdin w)
  end.

(** What [main] has printed before it validates. *)
Definition preamble (w : world) : text :=
  match argv w with
  | _ :: _ :: _ => banner
  | _ => print banner prompt
  end.

(** A URL argument that the heuristic passes over: none, the empty string,
    or one without the recognized shape. *)
Definition passed_over (url : option text) : bool :=
  match url with
  | Some u => negb (matches url_re u)
  | None => true
  end.

(** The summary line of block number [i] with findings [issues]. *)
Definition block_line (i : nat) (issues : list text) : text :=
  str "Block " ++ str_of_int (Z.of_nat i) ++ str ": "
    ++ join (str " | ") issues.

(** The characters a list of blocks takes in the text it was cut from: each
    block, its two fences and the newline of its opening. *)
Definition footprint (blocks : list text) : nat :=
  list_sum (map (fun b => length b + 7) blocks).

Definition q_free (s : text) : bool :=
  forallb (fun c => negb (Ascii.eqb c "q")) s.

Definition all_digits (ds : text) : bool :=
  match ds with
  | [] => false
  | _ => forallb is_digit ds
  end.

(** Three digits in a row somewhere in [s]. *)
Fixpoint three_digits (s : text) : bool :=
  match s with
  | x :: s' =>
      match s' with
      | y :: z :: _ => is_digit x && is_digit y && is_digit z
      | _ => false
      end || three_digits s'
  | [] => false
  end.

(** ** Sample inputs *)

Definition noon : datetime :=
  {| year := 2024; month := 6; day := 1; hour := 12; minute := 0;
     second := 0; microsecond := 0 |}.

Definition new_year_eve : datetime :=
  {| year := 2024; month := 12; day := 31; hour := 23; minute := 59;
     second := 59; microsecond := 999999 |}.

Definition long_ago : datetime :=
  {| year := 1999; month := 1; day := 2; hour := 3; minute := 4;
     second := 5; microsecond := 6 |}.

(** A file system with one file, and runs of the command at noon. *)
Definition one_file (path content : text) : text -> option text :=
  fun p => if text_eq_dec p path then Some content else None.

Definition typed_in (input : text) : world :=
  {| argv := [str "stack_overflow_validator.py"];
     files := fun _ => None;
     stdin := input;
     clock := noon |}.

Definition on_file (path content : text) (more : list text) : world :=
  {| argv := str "stack_overflow_validator.py" :: path :: more;
     files := one_file path content;
     stdin := [];
     clock := noon |}.

Definition fenced (tag body : string) : text :=
  fence ++ str tag ++ [nl] ++ str body ++ fence.

(** The two adjacent blocks of the specification's example. *)
Definition two_blocks : text :=
  (fence ++ [nl] ++ str "import md5" ++ [nl] ++ fence)
    ++ (fence ++ [nl] ++ str "x=1" ++ [nl] ++ fence).

Definition old_question : text :=
  str "https://stackoverflow.com/questions/123456/how-to-hash".


(** A question URL whose identifier has 4301 digits. *)
Definition endless_question : text :=
  str "https://stackoverflow.com/questions/" ++ repeat "7"%char 4301
    ++ str "/how-to-hash".


(** ** The embedding at work *)

Example extract_sample :
  extract_code_blocks
    (str "Do " ++ fenced "python" "import md5" ++ str " or "
       ++ fenced "" "x = 1" ++ str " not " ++ fenced "js" "y") =
  [str "import md5"; str "x = 1"].
Proof. vm_compute. reflexivity. Qed.

Example extract_unterminated :
  extract_code_blocks (fence ++ [nl] ++ str "x = 1") = [].
Proof. vm_compute. reflexivity. Qed.

Example findall_magic_sample :
  findall magic_re (str "port=8080, n=42, id_777, 1000ms, (65535)") =
  [str "8080"; str "65535"].
Proof. vm_compute. reflexivity. Qed.

Example check_imports_sample :
  check_imports (str "import urllib2; print x; print(y)") =
  [msg_urllib2; msg_print].
Proof. vm_compute. reflexivity. Qed.

Example int_padded : int (str " -1_000 ") = Ok (-1000)%Z.
Proof. vm_compute. reflexivity. Qed.

Example int_rejects : int (str "12a") = Raise ValueError.
Proof. vm_compute. reflexivity. Qed.

Example int_keeps_separators :
  int ("028"%char :: str "12") = Raise ValueError.
Proof. vm_compute. reflexivity. Qed.

Example int_at_the_limit :
  int (repeat "9"%char 4300) = Ok (decimal_value (repeat "9"%char 4300)).
Proof. vm_compute. reflexivity. Qed.

Example int_over_the_limit :
  int (repeat "0"%char 4300 ++ str "7") = Raise ValueError.
Proof. vm_compute. reflexivity. Qed.

Example main_endless_question :
  main (on_file (str "answer.md") (fenced "python" "x = 1")
          [endless_question]) =
  {| stdout := banner; raised := Some (Validator ValueError) |}.
Proof. vm_compute. reflexivity. Qed.

Example validate_sample :
  validate_stackoverflow_answer noon
    (fenced "python" "print x" ++ fenced "" "t = 3600")
    (Some old_question) =
  Ok [ ("status"%string, PROBABLY_OUTDATED);
       ("message"%string,
         str "Potential issues found:" ++ [nl]
           ++ str "- Block 1: Missing parentheses - the classic sign of vintage code"
           ++ [nl]
           ++ str "- Block 2: Magic number(s) found: 3600 - hope they're not port numbers"
           ++ [nl]
           ++ str "- Question ID 123456 looks ancient (like before 2019)");
       ("advice"%string, advice_outdated) ].
Proof. vm_compute. reflexivity. Qed.

Example main_sample :
  main (typed_in (fenced "" "print x")) =
  {| stdout :=
       str "Stack Overflow Answer Validator" ++ [nl]
         ++ str "========================================" ++ [nl]
         ++ str "Paste Stack Overflow answer (Ctrl+D when done):" ++ [nl]
         ++ [nl] ++ str "Verdict: PROBABLY_OUTDATED" ++ [nl]
         ++ str "Potential issues found:" ++ [nl]
         ++ str "- Block 1: Missing parentheses - the classic sign of vintage code"
         ++ [nl]
         ++ [nl]
         ++ str "Advice: Check library docs instead. Or just rewrite it yourself like a real developer."
         ++ [nl];
     raised := None |}.
Proof. vm_compute. reflexivity. Qed.

Example main_missing_file :
  main {| argv := [str "stack_overflow_validator.py"; str "missing.md"];
          files := one_file (str "answer.md") [];
          stdin := fenced "" "print x";
          clock := noon |} =
  {| stdout := banner; raised := Some ReadError |}.
Proof. vm_compute. reflexivity. Qed.

(** Facts on a single character are settled by its 256 cases. *)
Ltac by_cases_on c :=
  destruct c as [[] [] [] [] [] [] [] []]; vm_compute; congruence.

(** The one rule of the table that carries a given message. *)
Ltac only_rule :=
  let p' := fresh "p" in
  let H := fresh "H" in
  intros p' H; unfold deprecated_patterns in H;
  repeat (destruct H as [H | H];
          [first [ now injection H as <-
                 | exfalso; injection H as _ H; vm_compute in H;
                   discriminate H ]|]);
  destruct H.

(** ** The matcher on literals and runs *)

Lemma strip_prefix_app (l r : text) : strip_prefix l (l ++ r) = Some r.
Proof.
  induction l as [|c l IH]; simpl; [reflexivity|].
  now rewrite Ascii.eqb_refl.
Qed.

Lemma strip_prefix_Some (l s r : text) :
  strip_prefix l s = Some r -> s = l ++ r.
Proof.
  revert s; induction l as [|c l IH]; simpl; intros s H.
  - now inversion H.
  - destruct s as [|x s]; [discriminate|].
    destruct (Ascii.eqb x c) eqn:E; [|discriminate].
    apply Ascii.eqb_eq in E; subst x. f_equal. now apply IH.
Qed.

Lemma run_lit (l : text) (prev : option ascii) (s : text) (g : option text)
    (k : cont) :
  run (lit l) prev s g k =
  match strip_prefix l s with
  | Some r => k (last_prev prev l) r g
  | None => None
  end.
Proof.
  revert prev s; induction l as [|c l IH]; intros prev s; simpl.
  - reflexivity.
  - destruct s as [|x s]; [reflexivity|].
    destruct (Ascii.eqb x c) eqn:E; [|reflexivity].
    apply Ascii.eqb_eq in E; subst x. apply IH.
Qed.

Lemma orelse_None_r (a : option found) : orelse a None = a.
Proof. now destruct a. Qed.

Lemma span_app (p : ascii -> bool) (s : text) :
  s = fst (span p s) ++ snd (span p s).
Proof.
  induction s as [|c s IH]; simpl; [reflexivity|].
  destruct (p c); [|reflexivity].
  destruct (span p s) as [a b]; simpl in *. now f_equal.
Qed.

Lemma span_all (p : ascii -> bool) (s : text) :
  forallb p (fst (span p s)) = true.
Proof.
  induction s as [|c s IH]; simpl; [reflexivity|].
  destruct (p c) eqn:E; [|reflexivity].
  destruct (span p s) as [a b]; simpl in *. now rewrite E.
Qed.

Lemma span_stop (p : ascii -> bool) (s : text) :
  head_in p (snd (span p s)) = false.
Proof.
  induction s as [|c s IH]; simpl; [reflexivity|].
  destruct (p c) eqn:E; [|simpl; exact E].
  destruct (span p s) as [a b]; simpl in *. exact IH.
Qed.

Lemma span_run (p : ascii -> bool) (w rest : text) :
  forallb p w = true -> head_in p rest = false -> span p (w ++ rest) = (w, rest).
Proof.
  induction w as [|c w IH]; simpl; intros Hw Hrest.
  - destruct rest as [|x rest]; [reflexivity|]. simpl in *.
    now rewrite Hrest.
  - apply andb_true_iff in Hw as [Hc Hw]. now rewrite Hc, IH.
Qed.

Lemma span_cons_true (p : ascii -> bool) (c : ascii) (s : text) :
  p c = true -> span p (c :: s) = (c :: fst (span p s), snd (span p s)).
Proof. intros H. simpl. rewrite H. now destruct (span p s). Qed.

Lemma span_cons_false (p : ascii -> bool) (c : ascii) (s : text) :
  p c = false -> span p (c :: s) = ([], c :: s).
Proof. intros H. simpl. now rewrite H. Qed.

(** A greedy run followed by something that cannot start inside the run:
    the run is taken whole, and nothing is gained by giving characters
    back. *)
Lemma rep_greedy_run (p : ascii -> bool) (k : cont) (g : option text)
    (Hk : forall q c t, p q = true -> p c = true -> k (Some q) (c :: t) g = None)
    (ds rest : text) :
  forall (min : nat) (prev : option ascii),
    forallb p ds = true ->
    head_in p rest = false ->
    (min = 0 -> ds <> [] -> exists q, prev = Some q /\ p q = true) ->
    rep_greedy p min prev (ds ++ rest) g k =
    if min <=? length ds then k (last_prev prev ds) rest g else None.
Proof.
  induction ds as [|d ds IH]; intros min prev Hall Hrest Hprev.
  - simpl. destruct rest as [|c rest]; simpl in *.
    + now destruct min.
    + rewrite Hrest. now destruct min.
  - simpl in Hall. apply andb_true_iff in Hall as [Hd Hall].
    simpl. rewrite Hd.
    rewrite (IH (pred min) (Some d) Hall Hrest)
      by (intros _ _; now exists d).
    destruct min as [|min]; simpl.
    + destruct (Hprev eq_refl) as (q & -> & Hq); [discriminate|].
      rewrite (Hk q d (ds ++ rest) Hq Hd). apply orelse_None_r.
    + apply orelse_None_r.
Qed.

Lemma strip_prefix_cat (a b s : text) :
  strip_prefix (a ++ b) s =
  match strip_prefix a s with
  | Some r => strip_prefix b r
  | None => None
  end.
Proof.
  revert s; induction a as [|c a IH]; intros s; simpl; [reflexivity|].
  destruct s as [|x s]; [reflexivity|].
  destruct (Ascii.eqb x c); [apply IH | reflexivity].
Qed.

Lemma firstn_cut (pre s : text) :
  firstn (length (pre ++ s) - length s) (pre ++ s) = pre.
Proof.
  rewrite length_app, Nat.add_sub.
  rewrite firstn_app, Nat.sub_diag, firstn_all. simpl. apply app_nil_r.
Qed.

Lemma rep_lazy_unfold (p : ascii -> bool) (min : nat) (prev : option ascii)
    (s : text) (g : option text) (k : cont) :
  rep_lazy p min prev s g k =
  orelse (if min =? 0 then k prev s g else None)
    match s with
    | c :: s' => if p c then rep_lazy p (pred min) (Some c) s' g k else None
    | [] => None
    end.
Proof. destruct s; reflexivity. Qed.

(** ** The extraction pattern *)

Lemma split_fence_unfold (s : text) :
  split_fence s =
  match strip_prefix fence s with
  | Some r => Some ([], r)
  | None =>
      match s with
      | c :: s' =>
          match split_fence s' with
          | Some (b, r) => Some (c :: b, r)
          | None => None
          end
      | [] => None
      end
  end.
Proof. destruct s; reflexivity. Qed.

(** The lazy body followed by the closing fence stops at the first closing
    fence. *)
Lemma rep_lazy_fence (b : text) :
  forall (s pre : text) (prev : option ascii) (g : option text),
    b = pre ++ s ->
    rep_lazy (mem Dot) 0 prev s g
      (fun prev' s' _ =>
         run (lit fence) prev' s'
           (Some (firstn (length b - length s') b)) final) =
    match split_fence s with
    | Some (c, r) => Some (Some (pre ++ c), r)
    | None => None
    end.
Proof.
  induction s as [|c s IH]; intros pre prev g Hb;
    rewrite rep_lazy_unfold, split_fence_unfold;
    change (0 =? 0) with true; change (pred 0) with 0; cbv beta iota;
    rewrite run_lit;
    (replace (firstn (length b - length (@nil ascii)) b) with pre
       by (rewrite Hb; symmetry; apply firstn_cut)) ||
    (replace (firstn (length b - length (c :: s)) b) with pre
       by (rewrite Hb; symmetry; apply firstn_cut)).
  - reflexivity.
  - destruct (strip_prefix fence (c :: s)) as [r|] eqn:E.
    + unfold final, orelse. now rewrite app_nil_r.
    + change (mem Dot c) with true. cbv iota. unfold orelse at 1.
      rewrite (IH (pre ++ [c]) (Some c) g)
        by (now rewrite <- app_assoc).
      destruct (split_fence s) as [[b0 r]|]; [|reflexivity].
      now rewrite <- app_assoc.
Qed.

Lemma split_fence_Some (s c r : text) :
  split_fence s = Some (c, r) -> s = c ++ fence ++ r.
Proof.
  revert c r; induction s as [|x s IH]; intros c r;
    rewrite split_fence_unfold.
  - discriminate.
  - destruct (strip_prefix fence (x :: s)) as [r'|] eqn:E.
    + intros H; inversion H; subst. now apply strip_prefix_Some in E.
    + destruct (split_fence s) as [[b0 r0]|]; [|discriminate].
      intros H; inversion H; subst. simpl. f_equal. now apply IH.
Qed.

(** A match of the extraction pattern at the current position: an accepted
    opening, then the body up to the first closing fence. *)
Lemma match_here_fence (prev : option ascii) (s : text) :
  match_here fence_re prev s =
  match open_body s with
  | Some b =>
      match split_fence b with
      | Some (c, r) => Some (Some c, r)
      | None => None
      end
  | None => None
  end.
Proof.
  unfold match_here, fence_re, open_body, open_python, open_plain.
  rewrite !strip_prefix_cat. cbn [run]. rewrite run_lit.
  change (str "```") with fence.
  destruct (strip_prefix fence s) as [t|]; [|reflexivity].
  rewrite run_lit, strip_prefix_cat.
  assert (Hbody : forall (x : ascii) (u : text),
             (if Ascii.eqb x nl
              then rep_lazy (mem Dot) 0 (Some x) u None
                     (fun prev' s' _ =>
                        run (lit fence) prev' s'
                          (Some (firstn (length u - length s') u)) final)
              else None) =
             match strip_prefix [nl] (x :: u) with
             | Some b =>
                 match split_fence b with
                 | Some (c, r) => Some (Some c, r)
                 | None => None
                 end
             | None => None
             end).
  { intros x u. cbn [strip_prefix].
    destruct (Ascii.eqb x nl); [|reflexivity].
    now rewrite (rep_lazy_fence u u [] (Some x) None eq_refl). }
  destruct (strip_prefix (str "python") t) as [u|] eqn:E.
  - apply strip_prefix_Some in E. subst t.
    replace (match str "python" ++ u with
             | [] => None
             | x :: s' =>
                 if Ascii.eqb x nl
                 then rep_lazy (mem Dot) 0 (Some x) s' None
                        (fun prev' s'0 _ =>
                           run (lit fence) prev' s'0
                             (Some (firstn (length s' - length s'0) s'))
                             final)
                 else None
             end) with (@None found) by reflexivity.
    rewrite orelse_None_r.
    destruct u as [|x u].
    + reflexivity.
    + rewrite Hbody. cbn [strip_prefix].
      destruct (Ascii.eqb x nl); reflexivity.
  - unfold orelse at 1. destruct t as [|x u]; [reflexivity|].
    apply Hbody.
Qed.

(** ** Searching and finding all matches *)

Lemma last_prev_app (prev : option ascii) (a b : text) :
  last_prev prev (a ++ b) = last_prev (last_prev prev a) b.
Proof. revert prev; induction a as [|c a IH]; intros prev; simpl; auto. Qed.

(** Every reported item comes from a match at some position. *)
Lemma findall_from_In (r : regex) (x : text) (s : text) :
  forall (skip : nat) (prev : option ascii),
    In x (findall_from r skip prev s) ->
    exists pre suf m,
      s = pre ++ suf /\
      match_here r (last_prev prev pre) suf = Some m /\
      x = item r suf m.
Proof.
  induction s as [|c s IH]; intros skip prev H.
  - destruct skip as [|n]; simpl in H; [|contradiction].
    destruct (match_here r prev []) as [m|] eqn:E; [|contradiction].
    destruct H as [H|[]]. exists [], [], m. auto.
  - assert (Hrec : forall n, In x (findall_from r n (Some c) s) ->
               exists pre suf m, c :: s = pre ++ suf /\
                 match_here r (last_prev prev pre) suf = Some m /\
                 x = item r suf m).
    { intros n Hn. destruct (IH n (Some c) Hn) as (pre & suf & m & -> & Hm & Hx).
      exists (c :: pre), suf, m. auto. }
    destruct skip as [|n]; simpl in H; [|now apply (Hrec n)].
    destruct (match_here r prev (c :: s)) as [m|] eqn:E.
    + destruct H as [H|H]; [|now apply (Hrec _ H)].
      exists [], (c :: s), m. auto.
    + now apply (Hrec 0).
Qed.

(** Stepping over the characters of the last match. *)
Lemma findall_from_skip (r : regex) (w rest : text) :
  forall prev : option ascii,
    findall_from r (length w) prev (w ++ rest) =
    findall_from r 0 (last_prev prev w) rest.
Proof.
  induction w as [|c w IH]; intros prev; simpl.
  - now destruct rest.
  - apply IH.
Qed.

(** A match at the current position is reported, and the search goes on
    after it. *)
Lemma findall_from_hit (r : regex) (prev : option ascii) (c : ascii)
    (w rest : text) (m : found) :
  match_here r prev (c :: w ++ rest) = Some m ->
  snd m = rest ->
  findall_from r 0 prev (c :: w ++ rest) =
  item r (c :: w ++ rest) m :: findall_from r 0 (last_prev (Some c) w) rest.
Proof.
  intros Hm Hrest. simpl. rewrite Hm. f_equal.
  rewrite <- findall_from_skip. f_equal.
  unfold consumed. rewrite Hrest.
  change (c :: w ++ rest) with ((c :: w) ++ rest).
  rewrite firstn_cut. simpl. lia.
Qed.

Lemma findall_from_miss (r : regex) (prev : option ascii) (c : ascii)
    (s : text) :
  match_here r prev (c :: s) = None ->
  findall_from r 0 prev (c :: s) = findall_from r 0 (Some c) s.
Proof. intros H. simpl. now rewrite H. Qed.

(** A pattern without [\b] does not look at the character before. *)
Lemma findall_from_prev (r : regex)
    (Hr : forall prev s, match_here r prev s = match_here r None s)
    (s : text) :
  forall (skip : nat) (prev prev' : option ascii),
    findall_from r skip prev s = findall_from r skip prev' s.
Proof.
  induction s as [|c s IH]; intros skip prev prev'.
  - destruct skip; simpl; [|reflexivity].
    now rewrite (Hr prev), (Hr prev').
  - destruct skip as [|n]; simpl; [|apply IH].
    now rewrite (Hr prev), (Hr prev').
Qed.

(** [search] succeeds exactly when some position has a match. *)
Lemma search_from_Some (r : regex) (s : text) :
  forall (prev : option ascii) (m : found),
    search_from r prev s = Some m ->
    exists pre suf,
      s = pre ++ suf /\ match_here r (last_prev prev pre) suf = Some m.
Proof.
  induction s as [|c s IH]; intros prev m H; simpl in H.
  - destruct (match_here r prev []) eqn:E; [|discriminate].
    inversion H; subst. now exists [], [].
  - destruct (match_here r prev (c :: s)) eqn:E.
    + inversion H; subst. now exists [], (c :: s).
    + destruct (IH _ _ H) as (pre & suf & -> & Hm).
      now exists (c :: pre), suf.
Qed.

Lemma search_from_hit (r : regex) (pre suf : text) :
  forall prev : option ascii,
    match_here r (last_prev prev pre) suf <> None ->
    search_from r prev (pre ++ suf) <> None.
Proof.
  induction pre as [|c pre IH]; intros prev H; simpl in *.
  - destruct suf as [|c suf]; simpl;
      destruct (match_here r prev _); congruence.
  - destruct (match_here r prev (c :: pre ++ suf)); [discriminate|].
    now apply IH.
Qed.

(** The first match: no position before it has one. *)
Lemma search_from_first (r : regex) (pre suf : text) (m : found) :
  forall prev : option ascii,
    (forall a b, pre = a ++ b -> b <> [] ->
                 match_here r (last_prev prev a) (b ++ suf) = None) ->
    match_here r (last_prev prev pre) suf = Some m ->
    search_from r prev (pre ++ suf) = Some m.
Proof.
  induction pre as [|c pre IH]; intros prev Hnone Hm; simpl in *.
  - destruct suf; simpl; now rewrite Hm.
  - pose proof (Hnone [] (c :: pre) eq_refl) as H0. simpl in H0.
    rewrite H0 by discriminate.
    apply IH; [|exact Hm].
    intros a b -> Hb. apply (Hnone (c :: a) b eq_refl Hb).
Qed.

Lemma matches_true (r : regex) (s : text) :
  matches r s = true <->
  exists pre suf,
    s = pre ++ suf /\ match_here r (last_prev None pre) suf <> None.
Proof.
  unfold matches, search. split.
  - destruct (search_from r None s) as [m|] eqn:E; [|discriminate].
    intros _. apply search_from_Some in E as (pre & suf & -> & Hm).
    exists pre, suf. split; [reflexivity|]. congruence.
  - intros (pre & suf & -> & Hm).
    destruct (search_from r None (pre ++ suf)) eqn:E; [reflexivity|].
    exfalso. revert E. now apply search_from_hit.
Qed.

(** ** Extraction of code blocks *)

Lemma open_body_Some (s b : text) :
  open_body s = Some b -> exists o, opening o /\ s = o ++ b.
Proof.
  unfold open_body.
  destruct (strip_prefix open_python s) as [b'|] eqn:E.
  - intros H; inversion H; subst.
    exists open_python. split; [now right | now apply strip_prefix_Some].
  - intros H. exists open_plain. split; [now left | now apply strip_prefix_Some].
Qed.

Lemma open_body_open (o b : text) : opening o -> open_body (o ++ b) = Some b.
Proof.
  intros [-> | ->]; unfold open_body.
  - replace (strip_prefix open_python (open_plain ++ b)) with (@None text)
      by reflexivity.
    apply strip_prefix_app.
  - now rewrite strip_prefix_app.
Qed.

Lemma match_here_fence_prev (prev : option ascii) (s : text) :
  match_here fence_re prev s = match_here fence_re None s.
Proof. now rewrite !match_here_fence. Qed.

Lemma opening_cons (o : text) :
  opening o -> exists o', o = "`"%char :: o'.
Proof. intros [-> | ->]; eexists; reflexivity. Qed.

(** A match of the extraction pattern is never empty: [findall] always
    moves on. *)
Lemma match_here_fence_consumes (prev : option ascii) (s : text) (m : found) :
  match_here fence_re prev s = Some m -> length (snd m) < length s.
Proof.
  rewrite match_here_fence.
  destruct (open_body s) as [b|] eqn:Eo; [|discriminate].
  destruct (split_fence b) as [[c r]|] eqn:Es; [|discriminate].
  intros H; injection H as <-. cbn [snd].
  apply open_body_Some in Eo as (o & Ho & ->).
  apply split_fence_Some in Es as ->.
  rewrite !length_app. destruct (opening_cons o Ho) as (o' & ->). simpl. lia.
Qed.

(** At an accepted opening the block runs to the first closing fence, and
    extraction resumes after that fence. *)
Lemma extract_open (o b c r : text) :
  opening o ->
  split_fence b = Some (c, r) ->
  extract_code_blocks (o ++ b) = c :: extract_code_blocks r.
Proof.
  intros Ho Hsplit. unfold extract_code_blocks, findall.
  assert (Hm : match_here fence_re None (o ++ b) = Some (Some c, r)).
  { now rewrite match_here_fence, (open_body_open o b Ho), Hsplit. }
  apply split_fence_Some in Hsplit. subst b.
  destruct (opening_cons _ Ho) as (o' & ->).
  replace (("`"%char :: o') ++ c ++ fence ++ r)
    with ("`"%char :: (o' ++ c ++ fence) ++ r) in *
    by (simpl; now rewrite <- !app_assoc).
  rewrite (findall_from_hit fence_re None "`" (o' ++ c ++ fence) r _ Hm eq_refl).
  f_equal. apply (findall_from_prev fence_re match_here_fence_prev).
Qed.

(** No block starts at a character that is not a backtick. *)
Lemma extract_skip_char (x : ascii) (s : text) :
  x <> "`"%char ->
  extract_code_blocks (x :: s) = extract_code_blocks s.
Proof.
  intros Hx. unfold extract_code_blocks, findall.
  rewrite findall_from_miss.
  - apply (findall_from_prev fence_re match_here_fence_prev).
  - rewrite match_here_fence.
    replace (open_body (x :: s)) with (@None text); [reflexivity|].
    unfold open_body. cbn [open_python open_plain fence str
      list_ascii_of_string app strip_prefix].
    apply Ascii.eqb_neq in Hx. now rewrite Hx.
Qed.

Lemma extract_skip (sep s : text) :
  backtick_free sep = true ->
  extract_code_blocks (sep ++ s) = extract_code_blocks s.
Proof.
  induction sep as [|x sep IH]; simpl; intros H; [reflexivity|].
  apply andb_true_iff in H as [Hx H].
  rewrite extract_skip_char; [now apply IH|].
  apply negb_true_iff in Hx. now apply Ascii.eqb_neq.
Qed.

Lemma split_fence_clean (c r : text) :
  backtick_free c = true -> split_fence (c ++ fence ++ r) = Some (c, r).
Proof.
  induction c as [|x c IH]; intros H; rewrite split_fence_unfold.
  - change ([] ++ fence ++ r) with (fence ++ r). now rewrite strip_prefix_app.
  - simpl in H. apply andb_true_iff in H as [Hx H].
    apply negb_true_iff in Hx.
    replace (strip_prefix fence ((x :: c) ++ fence ++ r)) with (@None text)
      by (cbn [fence str list_ascii_of_string app strip_prefix];
          now rewrite Hx).
    change ((x :: c) ++ fence ++ r) with (x :: c ++ fence ++ r).
    cbv iota. now rewrite (IH H).
Qed.

(** Every extracted block stands between an accepted opening and a closing
    fence. *)
Lemma extract_In (t c : text) :
  In c (extract_code_blocks t) ->
  exists pre o post, opening o /\ t = pre ++ o ++ c ++ fence ++ post.
Proof.
  intros H. apply findall_from_In in H as (pre & suf & m & -> & Hm & ->).
  rewrite match_here_fence in Hm.
  destruct (open_body suf) as [b|] eqn:Eo; [|discriminate].
  destruct (split_fence b) as [[c r]|] eqn:Es; [|discriminate].
  inversion Hm; subst m.
  apply open_body_Some in Eo as (o & Ho & ->).
  apply split_fence_Some in Es as ->.
  exists pre, o, r. split; [exact Ho|reflexivity].
Qed.

Lemma opening_fence (o : text) : opening o -> exists tag, o = fence ++ tag.
Proof. intros [-> | ->]; eexists; reflexivity. Qed.

(** A text without two fences yields no block. *)
Lemma extract_no_pair (t : text) :
  ~ fence_pair t -> extract_code_blocks t = [].
Proof.
  intros H. destruct (extract_code_blocks t) as [|c l] eqn:E; [reflexivity|].
  exfalso. apply H.
  destruct (extract_In t c) as (pre & o & post & Ho & ->).
  { rewrite E. now left. }
  destruct (opening_fence _ Ho) as (tag & ->).
  exists pre, (tag ++ c), post. now rewrite <- !app_assoc.
Qed.

(** [split_fence] cuts at the first fence: no fence begins inside the
    text before the cut. *)
Lemma split_fence_first (s : text) :
  forall c r : text,
    split_fence s = Some (c, r) -> ~ contains fence (c ++ str "``").
Proof.
  induction s as [|x s IH]; intros c r; rewrite split_fence_unfold.
  - discriminate.
  - destruct (strip_prefix fence (x :: s)) as [r'|] eqn:E.
    + intros H; inversion H; subst. intros (a & b & Hab).
      apply (f_equal (@length ascii)) in Hab.
      rewrite !length_app in Hab. simpl in Hab. lia.
    + destruct (split_fence s) as [[c' r0]|] eqn:Es; [|discriminate].
      intros H; inversion H; subst. intros (a & b & Hab).
      destruct a as [|y a].
      * apply split_fence_Some in Es. subst s.
        assert (Hs : x :: c' ++ fence ++ r = fence ++ b ++ "`"%char :: r).
        { transitivity (((x :: c') ++ str "``") ++ "`"%char :: r).
          - now rewrite <- app_assoc.
          - rewrite Hab. cbn [app]. now rewrite <- !app_assoc. }
        rewrite Hs, strip_prefix_app in E. discriminate.
      * inversion Hab; subst. apply (IH _ _ eq_refl). now exists a, b.
Qed.

Lemma contains_cons (l s : text) (x : ascii) :
  contains l s -> contains l (x :: s).
Proof. intros (a & b & ->). now exists (x :: a), b. Qed.

Lemma occurs_false (l s : text) : occurs l s = false -> ~ contains l s.
Proof.
  induction s as [|x s IH]; intros H (a & b & E).
  - destruct a; [|discriminate]. destruct l; discriminate.
  - destruct a as [|y a].
    + simpl in E. cbn [occurs] in H.
      now rewrite E, strip_prefix_app in H.
    + injection E as <- E. cbn [occurs] in H.
      destruct (strip_prefix l (x :: s)); [discriminate|].
      apply (IH H). now exists a, b.
Qed.

Lemma fence_free_first (c : text) :
  fence_free c = true -> ~ contains fence (c ++ str "``").
Proof.
  unfold fence_free. intros H. apply occurs_false.
  now apply negb_true_iff in H.
Qed.

Lemma split_fence_complete (c r : text) :
  ~ contains fence (c ++ str "``") ->
  split_fence (c ++ fence ++ r) = Some (c, r).
Proof.
  induction c as [|x c IH]; intros H; rewrite split_fence_unfold.
  - change ([] ++ fence ++ r) with (fence ++ r). now rewrite strip_prefix_app.
  - replace (strip_prefix fence ((x :: c) ++ fence ++ r)) with (@None text).
    + change ((x :: c) ++ fence ++ r) with (x :: c ++ fence ++ r). cbv iota.
      rewrite IH; [reflexivity|].
      intros Hc. apply H. now apply contains_cons.
    + symmetry.
      destruct (strip_prefix fence ((x :: c) ++ fence ++ r)) as [r'|] eqn:E;
        [|reflexivity].
      exfalso. apply H. apply strip_prefix_Some in E.
      destruct c as [|y [|z c]]; inversion E; subst.
      * now exists [], [].
      * now exists [], ["`"%char].
      * now exists [], (c ++ str "``").
Qed.

(** ** Characters *)

Lemma digit_is_word (c : ascii) : is_digit c = true -> is_word c = true.
Proof. by_cases_on c. Qed.

Lemma digit_not_space (c : ascii) : is_digit c = true -> is_space c = false.
Proof. by_cases_on c. Qed.

Lemma digit_not_slash (c : ascii) :
  is_digit c = true -> Ascii.eqb c "/" = false.
Proof. by_cases_on c. Qed.

Lemma digit_not_sign (c : ascii) :
  is_digit c = true -> Ascii.eqb c "+" = false /\ Ascii.eqb c "-" = false.
Proof. destruct c as [[] [] [] [] [] [] [] []]; vm_compute; intuition congruence. Qed.

Lemma digit_value_range (c : ascii) :
  is_digit c = true -> (0 <= digit_value c <= 9)%Z.
Proof.
  destruct c as [[] [] [] [] [] [] [] []]; vm_compute;
    intuition congruence.
Qed.

(** ** [int] on the digits a pattern captured *)

Lemma lstrip_digit (c : ascii) (s : text) :
  is_digit c = true -> lstrip (c :: s) = c :: s.
Proof. intros H. simpl. now rewrite (digit_not_space c H). Qed.

Lemma strip_digits (ds : text) :
  forallb is_digit ds = true -> strip ds = ds.
Proof.
  intros H. unfold strip.
  assert (Hl : forall l, forallb is_digit l = true -> lstrip l = l).
  { intros [|c l] Hc; [reflexivity|]. simpl in Hc.
    apply andb_true_iff in Hc as [Hc _]. now apply lstrip_digit. }
  rewrite (Hl ds H), Hl, rev_involutive; [reflexivity|].
  rewrite forallb_forall in *. intros x Hx. apply H. now apply in_rev.
Qed.

Lemma digits_value_digits (ds : text) :
  forall acc : Z,
    forallb is_digit ds = true ->
    digits_value acc ds =
    Some (fold_left (fun a c => (10 * a + digit_value c)%Z) ds acc).
Proof.
  induction ds as [|c ds IH]; intros acc H; simpl in *; [reflexivity|].
  apply andb_true_iff in H as [Hc H]. rewrite Hc. now apply IH.
Qed.

Lemma count_digits_all (ds : text) :
  forallb is_digit ds = true -> count_digits ds = length ds.
Proof.
  unfold count_digits. induction ds as [|c ds IH]; [reflexivity|].
  cbn [forallb filter]. intros H. apply andb_true_iff in H as [Hc H].
  rewrite Hc. cbn [length]. now rewrite IH.
Qed.

(** [int] on a string of digits: its value, unless the digits are more
    than [int] converts. *)
Lemma int_digits (ds : text) :
  ds <> [] -> forallb is_digit ds = true ->
  int ds =
  if int_max_str_digits <? length ds then Raise ValueError
  else Ok (decimal_value ds).
Proof.
  intros Hne H. unfold int. rewrite (strip_digits ds H).
  destruct ds as [|c ds]; [congruence|].
  pose proof H as H'. cbn [forallb] in H'.
  apply andb_true_iff in H' as [Hc _].
  destruct (digit_not_sign c Hc) as [-> ->].
  rewrite Hc, (digits_value_digits (c :: ds) 0 H), (count_digits_all _ H).
  destruct (int_max_str_digits <? length (c :: ds)); [reflexivity|].
  unfold decimal_value. f_equal.
  destruct (fold_left _ _ _); reflexivity.
Qed.

Lemma decimal_value_nonneg (ds : text) :
  forallb is_digit ds = true -> (0 <= decimal_value ds)%Z.
Proof.
  unfold decimal_value.
  assert (H : forall acc, (0 <= acc)%Z -> forallb is_digit ds = true ->
            (0 <= fold_left (fun a c => (10 * a + digit_value c)%Z) ds acc)%Z).
  { induction ds as [|c ds IH]; intros acc Hacc Hd;
      cbn [fold_left forallb] in *; [exact Hacc|].
    apply andb_true_iff in Hd as [Hc Hd].
    apply IH; [|exact Hd]. pose proof (digit_value_range c Hc). lia. }
  apply H. lia.
Qed.

(** ** The URL patterns *)

(** [\d+/]: the digits are taken whole and a slash must follow. *)
Lemma digits_slash (G : text -> option text -> option text)
    (prev : option ascii) (t : text) (g : option text) :
  rep_greedy (mem Digit) 1 prev t g
    (fun prev' s' g' => run (Chr "/") prev' s' (G s' g') final) =
  match id_segment t with
  | Some (ds, r) => Some (G ("/"%char :: r) g, r)
  | None => None
  end.
Proof.
  unfold id_segment.
  pose proof (span_app is_digit t) as Ht.
  pose proof (span_all is_digit t) as Hall.
  pose proof (span_stop is_digit t) as Hstop.
  destruct (span is_digit t) as [ds rest]. simpl in Ht, Hall, Hstop. subst t.
  change (mem Digit) with is_digit.
  rewrite rep_greedy_run; try assumption.
  - destruct ds as [|d ds]; [reflexivity|].
    cbn [length Nat.leb run].
    destruct rest as [|x rest]; [reflexivity|].
    destruct (Ascii.eqb x "/") eqn:E; [|reflexivity].
    apply Ascii.eqb_eq in E. now subst x.
  - intros q c t _ Hc. cbn [run]. now rewrite (digit_not_slash c Hc).
  - discriminate.
Qed.

Lemma id_segment_Some (t ds r : text) :
  id_segment t = Some (ds, r) ->
  t = ds ++ "/"%char :: r /\ ds <> [] /\ forallb is_digit ds = true.
Proof.
  unfold id_segment.
  pose proof (span_app is_digit t) as Ht.
  pose proof (span_all is_digit t) as Hall.
  destruct (span is_digit t) as [run0 rest]. simpl in Ht, Hall.
  destruct run0 as [|d run0]; [discriminate|].
  destruct rest as [|x rest]; [discriminate|].
  destruct (Ascii.eqb x "/") eqn:E; [|discriminate].
  apply Ascii.eqb_eq in E. subst x.
  intros H. injection H as <- <-.
  split; [exact Ht|]. split; [discriminate|exact Hall].
Qed.

Lemma match_here_qid (prev : option ascii) (s : text) :
  match_here qid_re prev s =
  match qid_at s with
  | Some (ds, r) => Some (Some ds, r)
  | None => None
  end.
Proof.
  unfold match_here, qid_re, qid_at. cbn [run]. rewrite run_lit.
  destruct (strip_prefix (str "questions/") s) as [t|]; [|reflexivity].
  rewrite (digits_slash (fun s' _ => Some (firstn (length t - length s') t))).
  destruct (id_segment t) as [[ds r]|] eqn:E; [|reflexivity].
  apply id_segment_Some in E as (-> & _ & _).
  now rewrite firstn_cut.
Qed.

Lemma match_here_url (prev : option ascii) (s : text) :
  match_here url_re prev s =
  match url_at s with
  | Some (ds, r) => Some (None, r)
  | None => None
  end.
Proof.
  unfold match_here, url_re, url_at. cbn [run]. rewrite run_lit.
  destruct (strip_prefix (str "stackoverflow.com/questions/") s) as [t|];
    [|reflexivity].
  rewrite (digits_slash (fun _ g' => g')).
  now destruct (id_segment t) as [[ds r]|].
Qed.

(** What the second URL pattern captures is a non-empty string of digits,
    so [int] accepts it. *)
Lemma search_qid_digits (u : text) (m : found) :
  search qid_re u = Some m ->
  exists ds, group1 m = Some ds /\ ds <> [] /\ forallb is_digit ds = true.
Proof.
  intros H. apply search_from_Some in H as (pre & suf & -> & Hm).
  rewrite match_here_qid in Hm. unfold qid_at in Hm.
  destruct (strip_prefix (str "questions/") suf) as [t|]; [|discriminate].
  destruct (id_segment t) as [[ds r]|] eqn:E; [|discriminate].
  inversion Hm; subst m. apply id_segment_Some in E as (_ & Hne & Hd).
  now exists ds.
Qed.

Lemma matches_url_truthy (u : text) :
  matches url_re u = true -> truthy u = true.
Proof. destruct u; [discriminate | reflexivity]. Qed.

(** The second URL pattern finds the first segment. *)
Lemma search_from_qid (u : text) :
  forall prev : option ascii,
    search_from qid_re prev u =
    match first_segment u with
    | Some (ds, r) => Some (Some ds, r)
    | None => None
    end.
Proof.
  induction u as [|c u IH]; intros prev;
    cbn [search_from first_segment]; rewrite match_here_qid.
  - now destruct (qid_at []) as [[ds r]|].
  - destruct (qid_at (c :: u)) as [[ds r]|]; [reflexivity|]. apply IH.
Qed.

Lemma search_qid (u : text) :
  search qid_re u =
  match first_segment u with
  | Some (ds, r) => Some (Some ds, r)
  | None => None
  end.
Proof. apply search_from_qid. Qed.

Lemma first_segment_digits (u ds r : text) :
  first_segment u = Some (ds, r) ->
  ds <> [] /\ forallb is_digit ds = true.
Proof.
  intros H. pose proof (search_qid u) as Hs. rewrite H in Hs.
  destruct (search_qid_digits u _ Hs) as (ds' & Hg & Hne & Hd).
  injection Hg as <-. now split.
Qed.

(** The URL heuristic, case by case: it raises on a long identifier and
    adds [url_extra] otherwise. *)
Lemma url_issues_cases (current_year : Z) (url : option text) :
  url_issues current_year url =
  if long_identifier url then Raise ValueError
  else Ok (url_extra current_year url).
Proof.
  unfold url_issues, long_identifier, url_extra.
  destruct url as [u|]; [|reflexivity].
  destruct (matches url_re u) eqn:Em; [|now rewrite andb_false_r].
  rewrite (matches_url_truthy u Em). cbn [andb]. rewrite search_qid.
  destruct (first_segment u) as [[ds r]|] eqn:Ef; [|reflexivity].
  destruct (first_segment_digits u ds r Ef) as [Hne Hd].
  unfold int_group1, group1. cbn [fst]. rewrite (int_digits ds Hne Hd).
  destruct (int_max_str_digits <? length ds); [reflexivity|].
  now destruct (decimal_value ds <? threshold)%Z.
Qed.

Lemma url_issues_short (current_year : Z) (url : option text) :
  long_identifier url = false ->
  url_issues current_year url = Ok (url_extra current_year url).
Proof. intros H. now rewrite url_issues_cases, H. Qed.

Lemma url_issues_long (current_year : Z) (url : option text) :
  long_identifier url = true ->
  url_issues current_year url = Raise ValueError.
Proof. intros H. now rewrite url_issues_cases, H. Qed.

Lemma id_segment_digits (ds post : text) :
  ds <> [] -> forallb is_digit ds = true ->
  id_segment (ds ++ "/"%char :: post) = Some (ds, post).
Proof.
  intros Hne Hd. unfold id_segment.
  rewrite (span_run is_digit ds ("/"%char :: post) Hd eq_refl).
  destruct ds; [congruence | reflexivity].
Qed.

(** The recognized shape: [stackoverflow.com/questions/], digits, a slash,
    anywhere in the URL. *)
Lemma url_shape (u : text) :
  matches url_re u = true <->
  exists pre ds post,
    u = pre ++ str "stackoverflow.com/questions/" ++ ds ++ "/"%char :: post /\
    ds <> [] /\ forallb is_digit ds = true.
Proof.
  rewrite matches_true. split.
  - intros (pre & suf & -> & Hm). rewrite match_here_url in Hm.
    unfold url_at in Hm.
    destruct (strip_prefix _ suf) as [t|] eqn:E; [|congruence].
    apply strip_prefix_Some in E. subst suf.
    destruct (id_segment t) as [[ds r]|] eqn:Et; [|congruence].
    apply id_segment_Some in Et as (-> & Hne & Hd).
    now exists pre, ds, r.
  - intros (pre & ds & post & -> & Hne & Hd).
    exists pre, (str "stackoverflow.com/questions/" ++ ds ++ "/"%char :: post).
    split; [reflexivity|]. rewrite match_here_url. unfold url_at.
    now rewrite strip_prefix_app, (id_segment_digits ds post Hne Hd).
Qed.

(** In a URL with no [q] before the site name the identifier the second
    pattern reads is the one of the recognized shape. *)
Lemma search_qid_plain (pre ds post : text) :
  forallb (fun c => negb (Ascii.eqb c "q")) pre = true ->
  ds <> [] -> forallb is_digit ds = true ->
  search qid_re
    (pre ++ str "stackoverflow.com/questions/" ++ ds ++ "/"%char :: post) =
  Some (Some ds, post).
Proof.
  intros Hpre Hne Hd. unfold search.
  change (str "stackoverflow.com/questions/")
    with (str "stackoverflow.com/" ++ str "questions/").
  rewrite <- (app_assoc (str "stackoverflow.com/")), app_assoc.
  apply search_from_first.
  - intros a b Hab Hb. rewrite match_here_qid.
    replace (qid_at (b ++ str "questions/" ++ ds ++ "/"%char :: post))
      with (@None (text * text)); [reflexivity|].
    destruct b as [|x b]; [congruence|].
    assert (Hx : Ascii.eqb x "q" = false).
    { assert (Hall : forallb (fun c => negb (Ascii.eqb c "q"))
                       (pre ++ str "stackoverflow.com/") = true)
        by (rewrite forallb_app, Hpre; reflexivity).
      rewrite Hab, forallb_app in Hall.
      apply andb_true_iff in Hall as [_ Hall]. simpl in Hall.
      apply andb_true_iff in Hall as [Hall _]. now apply negb_true_iff. }
    unfold qid_at. cbn [app str list_ascii_of_string strip_prefix].
    now rewrite Hx.
  - rewrite match_here_qid. unfold qid_at.
    now rewrite strip_prefix_app, (id_segment_digits ds post Hne Hd).
Qed.

(** ** The verdict *)


Lemma validate_blocks (now : datetime) (answer_text : text)
    (url : option text) :
  extract_code_blocks answer_text <> [] ->
  validate_stackoverflow_answer now answer_text url =
  match all_issues now (extract_code_blocks answer_text) url with
  | Ok issues => Ok (verdict_of issues)
  | Raise e => Raise e
  end.
Proof.
  intros H. unfold validate_stackoverflow_answer.
  now destruct (extract_code_blocks answer_text).
Qed.

(** The validator, case by case. *)
Lemma validate_cases (now : datetime) (answer_text : text)
    (url : option text) :
  validate_stackoverflow_answer now answer_text url =
  match extract_code_blocks answer_text with
  | [] => Ok [ ("status"%string, SUSPICIOUS); ("message"%string, msg_no_code) ]
  | blocks =>
      if long_identifier url then Raise ValueError
      else Ok (verdict_of (block_issues 1 blocks ++ url_extra (year now) url))
  end.
Proof.
  unfold validate_stackoverflow_answer, all_issues.
  destruct (extract_code_blocks answer_text) as [|b blocks]; [reflexivity|].
  rewrite url_issues_cases. now destruct (long_identifier url).
Qed.

Lemma has_blocks_false (t : text) :
  has_blocks t = false <-> extract_code_blocks t = [].
Proof.
  unfold has_blocks.
  destruct (extract_code_blocks t); split; congruence.
Qed.

Lemma has_blocks_true (t : text) :
  has_blocks t = true <-> extract_code_blocks t <> [].
Proof.
  unfold has_blocks.
  destruct (extract_code_blocks t); split; congruence.
Qed.



(** C2.  When extraction finds no block -- in particular when the text holds
    no two fences, as with no fence at all or one fence left open -- the
    validator returns, whatever the URL, the SUSPICIOUS verdict with its
    fixed message and no advice. *)
Theorem validate_no_blocks (now : datetime) (answer_text : text)
    (url : option text) :
  extract_code_blocks answer_text = [] \/ ~ fence_pair answer_text ->
  validate_stackoverflow_answer now answer_text url =
    Ok [ ("status"%string, SUSPICIOUS);
         ("message"%string,
           str "No code blocks found. Probably just philosophical advice about programming.") ] /\
  get "advice"
    [ ("status"%string, SUSPICIOUS); ("message"%string, msg_no_code) ] = None.
Proof.
  intros H. split; [|reflexivity].
  assert (E : extract_code_blocks answer_text = []).
  { destruct H as [H|H]; [exact H | now apply extract_no_pair]. }
  unfold validate_stackoverflow_answer. now rewrite E.
Qed.

Lemma validate_no_blocks_witness :
  validate_stackoverflow_answer noon
    (str "Use this: " ++ fence ++ str "python" ++ [nl] ++ str "import md5")
    (Some (str "https://stackoverflow.com/questions/123456/title")) =
    Ok [ ("status"%string, SUSPICIOUS);
         ("message"%string,
           str "No code blocks found. Probably just philosophical advice about programming.") ] /\
  get "advice"
    [ ("status"%string, SUSPICIOUS); ("message"%string, msg_no_code) ] = None.
Proof.
  apply (validate_no_blocks noon
           (str "Use this: " ++ fence ++ str "python" ++ [nl]
              ++ str "import md5")
           (Some (str "https://stackoverflow.com/questions/123456/title"))).
  left. vm_compute. reflexivity.
Defined.

(** ** Words and numeric tokens *)

Lemma words_from_run (w : text) :
  forall cur rest : text,
    forallb is_word w = true ->
    word_after rest = false ->
    words_from cur (w ++ rest) =
    match cur ++ w with
    | [] => words_from [] rest
    | cw => cw :: words_from [] rest
    end.
Proof.
  induction w as [|c w IH]; intros cur rest Hw Hrest.
  - rewrite app_nil_r. simpl.
    destruct rest as [|x rest]; simpl in *.
    + now destruct cur.
    + rewrite Hrest. now destruct cur.
  - simpl in Hw. apply andb_true_iff in Hw as [Hc Hw].
    simpl. rewrite Hc, (IH (cur ++ [c]) rest Hw Hrest).
    now rewrite <- app_assoc.
Qed.

(** The digits at the head of a text against the word at its head: they are
    the same run unless a word character follows the digits. *)
Lemma span_digit_word (s : text) :
  if word_after (snd (span is_digit s))
  then forallb is_digit (fst (span is_word s)) = false
  else span is_word s = span is_digit s.
Proof.
  induction s as [|c s IH]; [reflexivity|].
  destruct (is_digit c) eqn:Hd.
  - rewrite (span_cons_true is_digit c s Hd).
    rewrite (span_cons_true is_word c s (digit_is_word c Hd)).
    cbn [fst snd forallb]. rewrite Hd.
    destruct (word_after (snd (span is_digit s))); [exact IH|].
    now rewrite IH.
  - rewrite (span_cons_false is_digit c s Hd). cbn [snd word_after].
    destruct (is_word c) eqn:Hw.
    + rewrite (span_cons_true is_word c s Hw). cbn [fst forallb].
      now rewrite Hd.
    + now rewrite (span_cons_false is_word c s Hw).
Qed.

Lemma last_prev_digits (ds : text) :
  forall prev : option ascii,
    forallb is_digit ds = true -> ds <> [] ->
    word_before (last_prev prev ds) = true.
Proof.
  induction ds as [|d ds IH]; intros prev Hall Hne; [congruence|].
  simpl in Hall. apply andb_true_iff in Hall as [Hd Hall].
  destruct ds as [|d' ds].
  - simpl. now apply digit_is_word.
  - apply (IH (Some d) Hall). discriminate.
Qed.

(** A match of the magic-number pattern at the current position. *)
Lemma match_here_magic (prev : option ascii) (s : text) :
  match_here magic_re prev s =
  if at_boundary prev s
     && (3 <=? length (fst (span is_digit s)))
     && negb (word_after (snd (span is_digit s)))
  then Some (None, snd (span is_digit s))
  else None.
Proof.
  unfold match_here, magic_re. cbn [run].
  destruct (at_boundary prev s); [|reflexivity]. cbn [andb].
  pose proof (span_app is_digit s) as Hs.
  pose proof (span_all is_digit s) as Hall.
  pose proof (span_stop is_digit s) as Hstop.
  destruct (span is_digit s) as [ds rest]. cbn [fst snd] in *.
  rewrite Hs at 1. change (mem Digit) with is_digit.
  rewrite rep_greedy_run; try assumption.
  - destruct (3 <=? length ds) eqn:E; [|reflexivity]. cbn [andb].
    assert (Hw : word_before (last_prev prev ds) = true).
    { apply last_prev_digits; [exact Hall|].
      intros ->. discriminate E. }
    unfold at_boundary. rewrite Hw.
    now destruct (word_after rest).
  - intros q c t Hq Hc. unfold at_boundary. cbn [word_before word_after].
    now rewrite (digit_is_word q Hq), (digit_is_word c Hc).
  - discriminate.
Qed.

(** A match of the magic-number pattern holds three characters or more. *)
Lemma match_here_magic_consumes (prev : option ascii) (s : text) (m : found) :
  match_here magic_re prev s = Some m -> length (snd m) + 3 <= length s.
Proof.
  rewrite match_here_magic.
  destruct (at_boundary prev s); [|discriminate]. cbn [andb].
  destruct (3 <=? length (fst (span is_digit s))) eqn:E; [|discriminate].
  destruct (negb _); [|discriminate].
  intros H; injection H as <-. cbn [snd].
  apply Nat.leb_le in E.
  rewrite (span_app is_digit s) at 2. rewrite length_app. lia.
Qed.

Lemma magic_no_match_inside (q : ascii) (s : text) :
  is_word q = true -> head_in is_word s = true ->
  match_here magic_re (Some q) s = None.
Proof.
  intros Hq Hs. rewrite match_here_magic.
  destruct s as [|c s]; [discriminate|]. simpl in Hs.
  unfold at_boundary. cbn [word_before word_after]. now rewrite Hq, Hs.
Qed.

Lemma magic_no_match_nonword (prev : option ascii) (s : text) :
  head_in is_word s = false -> match_here magic_re prev s = None.
Proof.
  intros Hs. rewrite match_here_magic.
  destruct s as [|c s]; simpl in *.
  - now rewrite andb_false_r.
  - assert (Hd : is_digit c = false).
    { destruct (is_digit c) eqn:E; [|reflexivity].
      apply digit_is_word in E. congruence. }
    rewrite Hd. cbn [fst length Nat.leb]. now rewrite andb_false_r.
Qed.

(** The scan of the magic-number pattern, by the state it is in: outside a
    word it reports the numeric tokens of what is left; inside a word, or
    still stepping over a match, it first leaves the word. *)
Lemma findall_magic_states (s : text) :
  (forall prev,
      word_before prev = false ->
      findall_from magic_re 0 prev s = filter numeric3 (words s)) /\
  (forall n prev,
      n <= length s ->
      forallb is_word (firstn n s) = true ->
      (n = 0 -> word_before prev = true) ->
      findall_from magic_re n prev s =
      filter numeric3 (words (snd (span is_word s)))).
Proof.
  induction s as [|c s [IHout IHin]]; split.
  - intros prev Hp. cbn [findall_from].
    now rewrite magic_no_match_nonword.
  - intros n prev Hn _ Hp. destruct n as [|n]; [|simpl in Hn; lia].
    cbn [findall_from]. now rewrite magic_no_match_nonword.
  - intros prev Hp. destruct (is_word c) eqn:Hc.
    + (* the head of a word *)
      pose proof (span_app is_word (c :: s)) as Hs.
      pose proof (span_all is_word (c :: s)) as Hall.
      pose proof (span_stop is_word (c :: s)) as Hstop.
      pose proof (span_digit_word (c :: s)) as Hdw.
      rewrite (span_cons_true is_word c s Hc) in Hs, Hall, Hstop, Hdw.
      cbn [fst snd] in Hs, Hall, Hstop, Hdw.
      set (w := fst (span is_word s)) in *.
      set (r := snd (span is_word s)) in *.
      clearbody w r.
      assert (Hwords : words (c :: s) = (c :: w) :: words r).
      { rewrite Hs. unfold words.
        rewrite (words_from_run (c :: w) [] r Hall); [reflexivity|].
        destruct r; [reflexivity|exact Hstop]. }
      rewrite Hwords. cbn [filter].
      cbn [findall_from]. rewrite match_here_magic.
      assert (Hb : at_boundary prev (c :: s) = true).
      { unfold at_boundary. cbn [word_after]. now rewrite Hp, Hc. }
      rewrite Hb. cbn [andb].
      destruct (word_after (snd (span is_digit (c :: s)))) eqn:Hafter.
      * (* the digits run into a longer word: no token *)
        rewrite andb_false_r.
        unfold numeric3 at 1. rewrite Hdw. cbn [andb].
        apply IHin; [lia | reflexivity | intros _; exact Hc].
      * rewrite andb_true_r. rewrite <- Hdw. cbn [fst snd].
        unfold numeric3 at 1.
        assert (Hdig : forallb is_digit (c :: w) = true).
        { pose proof (span_all is_digit (c :: s)) as Hd.
          now rewrite <- Hdw in Hd. }
        rewrite Hdig. cbn [andb].
        destruct (3 <=? length (c :: w)) eqn:Hlen.
        -- (* a token: reported, then stepped over *)
           unfold item. cbn [has_group magic_re orb snd].
           unfold consumed.
           assert (Hcut : firstn (length (c :: s) - length r) (c :: s)
                          = c :: w) by (rewrite Hs; apply firstn_cut).
           rewrite Hcut. f_equal.
           change (length (c :: w) - 1) with (length w - 0).
           rewrite Nat.sub_0_r.
           apply IHin.
           ++ apply (f_equal (@length ascii)) in Hs.
              rewrite length_app in Hs. simpl in Hs. lia.
           ++ injection Hs as Hs.
              replace (firstn (length w) s) with w.
              ** simpl in Hall. now apply andb_true_iff in Hall.
              ** rewrite Hs.
                 rewrite firstn_app, Nat.sub_diag, firstn_all. cbn [firstn].
                 now rewrite app_nil_r.
           ++ intros _. exact Hc.
        -- apply IHin; [lia | reflexivity | intros _; exact Hc].
    + (* a character outside words *)
      cbn [findall_from].
      rewrite magic_no_match_nonword by (simpl; exact Hc).
      unfold words. cbn [words_from]. rewrite Hc.
      apply IHout. exact Hc.
  - intros n prev Hn Hall Hp. destruct n as [|n].
    + specialize (Hp eq_refl).
      destruct prev as [q|]; [|discriminate]. cbn [word_before] in Hp.
      destruct (is_word c) eqn:Hc.
      * cbn [findall_from].
        rewrite magic_no_match_inside by (simpl; assumption).
        rewrite (span_cons_true is_word c s Hc). cbn [snd].
        apply IHin; [lia | reflexivity | intros _; exact Hc].
      * cbn [findall_from].
        rewrite magic_no_match_nonword by (simpl; exact Hc).
        rewrite (span_cons_false is_word c s Hc). cbn [snd].
        unfold words. cbn [words_from]. rewrite Hc.
        apply IHout. exact Hc.
    + cbn [firstn forallb] in Hall. apply andb_true_iff in Hall as [Hc Hall].
      cbn [findall_from].
      rewrite (span_cons_true is_word c s Hc). cbn [snd].
      apply IHin; [simpl in Hn; lia | exact Hall | intros _; exact Hc].
Qed.

(** The magic-number pattern finds exactly the numeric tokens. *)
Lemma findall_magic (s : text) : findall magic_re s = numeric_tokens s.
Proof. apply (proj1 (findall_magic_states s)). reflexivity. Qed.

Lemma words_from_In (w post : text) :
  w <> [] ->
  forallb is_word w = true ->
  word_after post = false ->
  forall (pre cur : text) (prev : option ascii),
    word_before (last_prev prev pre) = false ->
    (pre = [] -> cur = []) ->
    In w (words_from cur (pre ++ w ++ post)).
Proof.
  intros Hne Hw Hpost. induction pre as [|c pre IH]; intros cur prev Hp Hcur.
  - rewrite (Hcur eq_refl). cbn [app].
    rewrite (words_from_run w [] post Hw Hpost). cbn [app].
    destruct w; [congruence | now left].
  - cbn [app words_from]. cbn [last_prev] in Hp.
    destruct (is_word c) eqn:Hc.
    + apply (IH _ (Some c) Hp). intros ->. simpl in Hp. congruence.
    + destruct cur; [|right]; apply (IH [] (Some c) Hp); reflexivity.
Qed.

(** A numeric token standing alone in a text is one of its numeric
    tokens. *)
Lemma numeric_token_In (w pre post : text) :
  numeric3 w = true ->
  word_before (last_prev None pre) = false ->
  word_after post = false ->
  In w (numeric_tokens (pre ++ w ++ post)).
Proof.
  intros Hn Hpre Hpost. unfold numeric_tokens. apply filter_In. split; [|exact Hn].
  unfold numeric3 in Hn. apply andb_true_iff in Hn as [Hd Hl].
  apply (words_from_In w post) with (prev := None); auto.
  - intros ->. discriminate.
  - rewrite forallb_forall in *. intros x Hx. apply digit_is_word. now apply Hd.
Qed.

(** ** The rule table *)

Lemma rep_greedy_zero_final (p : ascii -> bool) (s : text) :
  forall (prev : option ascii) (g : option text),
    rep_greedy p 0 prev s g final <> None.
Proof.
  induction s as [|c s IH]; intros prev g; simpl; [discriminate|].
  destruct (p c); [|discriminate].
  destruct (rep_greedy p 0 (Some c) s g final); discriminate.
Qed.

Lemma match_here_print (prev : option ascii) (s : text) :
  match_here print_re prev s <> None <-> print_at s = true.
Proof.
  unfold match_here, print_re, print_at. cbn [run]. rewrite run_lit.
  destruct (strip_prefix (str "print ") s) as [t|]; [|split; congruence].
  change (mem Word) with is_word.
  destruct t as [|c t]; simpl; [split; congruence|].
  destruct (is_word c); [|split; congruence].
  split; [reflexivity|]. intros _.
  pose proof (rep_greedy_zero_final is_word t (Some c) None) as H.
  now destruct (rep_greedy is_word 0 (Some c) t None final).
Qed.

Lemma print_at_true (s : text) :
  print_at s = true <->
  exists c post, s = str "print " ++ c :: post /\ is_word c = true.
Proof.
  unfold print_at. split.
  - destruct (strip_prefix (str "print ") s) as [t|] eqn:E; [|discriminate].
    apply strip_prefix_Some in E. destruct t as [|c t]; [discriminate|].
    simpl. intros Hc. now exists c, t.
  - intros (c & post & -> & Hc). now rewrite strip_prefix_app.
Qed.

(** The print rule fires exactly on the texts that hold [print], a space
    and a word character. *)
Lemma matches_print (code : text) :
  matches print_re code = true <->
  exists pre c post,
    code = pre ++ str "print " ++ c :: post /\ is_word c = true.
Proof.
  rewrite matches_true. split.
  - intros (pre & suf & -> & Hm).
    apply match_here_print, print_at_true in Hm as (c & post & -> & Hc).
    now exists pre, c, post.
  - intros (pre & c & post & -> & Hc).
    exists pre, (str "print " ++ c :: post). split; [reflexivity|].
    apply match_here_print, print_at_true. now exists c, post.
Qed.

(** A literal rule fires exactly on the texts that hold the literal. *)
Lemma matches_lit (l code : text) :
  matches (lit l) code = true <-> contains l code.
Proof.
  rewrite matches_true. unfold match_here, contains. split.
  - intros (pre & suf & -> & Hm). rewrite run_lit in Hm.
    destruct (strip_prefix l suf) as [r|] eqn:E; [|congruence].
    apply strip_prefix_Some in E. subst suf. now exists pre, r.
  - intros (a & b & ->). exists a, (l ++ b). split; [reflexivity|].
    rewrite run_lit, strip_prefix_app. discriminate.
Qed.

Lemma scan_rules_In (m : text) (code : text) (rules : list (regex * text)) :
  In m (scan_rules rules code) <->
  exists p, In (p, m) rules /\ matches p code = true.
Proof.
  induction rules as [|[p0 m0] rules IH]; simpl.
  - split; [contradiction | now intros (p & [] & _)].
  - destruct (matches p0 code) eqn:E; simpl; rewrite ?IH; split.
    + intros [<- | (p & Hp & Hm)]; [now exists p0; auto|].
      exists p; auto.
    + intros (p & [Hp | Hp] & Hm).
      * left. congruence.
      * right. now exists p.
    + intros (p & Hp & Hm). exists p; auto.
    + intros (p & [Hp | Hp] & Hm).
      * inversion Hp; subst. congruence.
      * now exists p.
Qed.


Lemma magic_finding_not_print (ts : list text) :
  magic_prefix ++ join (str ", ") ts ++ magic_suffix <> msg_print.
Proof. discriminate. Qed.

Lemma check_imports_once (code : text) :
  count_occ text_eq_dec (check_imports code) msg_print <= 1.
Proof.
  unfold check_imports, deprecated_patterns. cbn [scan_rules].
  repeat match goal with
         | |- context [matches ?p code] => destruct (matches p code)
         end; vm_compute; lia.
Qed.

Lemma block_findings_once (code : text) :
  count_occ text_eq_dec (block_findings code) msg_print <= 1.
Proof.
  unfold block_findings. rewrite count_occ_app.
  pose proof (check_imports_once code) as H.
  unfold check_for_magic_numbers.
  destruct (findall magic_re code) as [|t ts]; cbn [count_occ]; [lia|].
  destruct (text_eq_dec
              (magic_prefix ++ join (str ", ") (t :: ts) ++ magic_suffix)
              msg_print) as [E|_]; [|lia].
  now apply magic_finding_not_print in E.
Qed.

(** ** Properties of the verdict *)








(** The verdict depends on the clock through the current year only: two
    calls with the same answer text and URL, made at instants of the same
    year, return the same verdict. *)
Theorem validate_same_year (now1 now2 : datetime) (answer_text : text)
    (url : option text) :
  year now1 = year now2 ->
  validate_stackoverflow_answer now1 answer_text url =
  validate_stackoverflow_answer now2 answer_text url.
Proof.
  intros Hyear. unfold validate_stackoverflow_answer, all_issues.
  now rewrite Hyear.
Qed.

Lemma validate_same_year_witness :
  validate_stackoverflow_answer noon two_blocks (Some old_question) =
  validate_stackoverflow_answer new_year_eve two_blocks (Some old_question).
Proof.
  apply (validate_same_year noon new_year_eve two_blocks (Some old_question)).
  reflexivity.
Defined.

(** ** Properties of extraction *)

Lemma extract_first_fence (o c r : text) :
  opening o ->
  fence_free c = true ->
  extract_code_blocks (o ++ c ++ fence ++ r) = c :: extract_code_blocks r.
Proof.
  intros Ho Hc. apply extract_open; [exact Ho|].
  now apply split_fence_complete, fence_free_first.
Qed.

(** C5.  Extraction is not greedy.  After an accepted opening the block ends
    at the first closing fence, and extraction resumes behind it; so two
    fenced blocks next to each other (with nothing, or text free of
    backticks, between them) come out as two blocks, in order.  For the
    two blocks of the example, the first holding [import md5] and the
    second [x=1], extraction gives the two bodies and only the first has
    a finding. *)
Theorem extraction_not_greedy :
  (forall o c r : text,
      opening o ->
      fence_free c = true ->
      extract_code_blocks (o ++ c ++ fence ++ r) =
      c :: extract_code_blocks r) /\
  (forall o1 o2 c1 c2 sep : text,
      opening o1 -> opening o2 ->
      fence_free c1 = true ->
      fence_free c2 = true ->
      backtick_free sep = true ->
      extract_code_blocks
        ((o1 ++ c1 ++ fence) ++ sep ++ (o2 ++ c2 ++ fence)) = [c1; c2]) /\
  extract_code_blocks two_blocks =
    [str "import md5" ++ [nl]; str "x=1" ++ [nl]] /\
  map block_findings (extract_code_blocks two_blocks) =
    [[str "MD5? More like M-Deprecated"]; []] /\
  validate_stackoverflow_answer noon two_blocks None =
    Ok [ ("status"%string, PROBABLY_OUTDATED);
         ("message"%string,
           str "Potential issues found:" ++ [nl]
             ++ str "- Block 1: MD5? More like M-Deprecated");
         ("advice"%string, advice_outdated) ].
Proof.
  split; [exact extract_first_fence|]. split.
  - intros o1 o2 c1 c2 sep Ho1 Ho2 Hc1 Hc2 Hsep.
    rewrite <- !app_assoc.
    rewrite (extract_first_fence o1 c1 _ Ho1 Hc1).
    rewrite (extract_skip sep _ Hsep).
    replace (o2 ++ c2 ++ fence) with (o2 ++ c2 ++ fence ++ [])
      by now rewrite app_nil_r.
    now rewrite (extract_first_fence o2 c2 [] Ho2 Hc2).
  - repeat split; vm_compute; reflexivity.
Qed.

Lemma other_tag_no_block (prev : option ascii) (tag body : text) :
  language_tag tag ->
  tag <> str "python" ->
  match_here fence_re prev (fence ++ tag ++ nl :: body) = None.
Proof.
  intros [Hne Hw] Hpy. rewrite match_here_fence.
  replace (open_body (fence ++ tag ++ nl :: body)) with (@None text);
    [reflexivity|].
  symmetry. unfold open_body, open_python, open_plain.
  rewrite !strip_prefix_cat, !strip_prefix_app, strip_prefix_cat.
  assert (Hnl : forall x, is_word x = true -> Ascii.eqb x nl = false)
    by (intros x; by_cases_on x).
  destruct tag as [|t1 tag]; [congruence|].
  cbn [forallb] in Hw. apply andb_true_iff in Hw as [H1 Hw].
  replace (strip_prefix [nl] ((t1 :: tag) ++ nl :: body)) with (@None text)
    by (cbn [app strip_prefix]; now rewrite (Hnl t1 H1)).
  destruct (strip_prefix (str "python") ((t1 :: tag) ++ nl :: body))
    as [rest|] eqn:E; [|reflexivity].
  apply strip_prefix_Some in E.
  destruct rest as [|x rest]; [reflexivity|]. cbn [strip_prefix].
  destruct (Ascii.eqb x nl) eqn:Ex; [|reflexivity].
  apply Ascii.eqb_eq in Ex. subst x. exfalso.
  (* the first newline stands behind the tag on the left, behind [python]
     on the right *)
  assert (Hword : forall x, In x (t1 :: tag) -> x <> nl).
  { assert (Hall : forallb is_word (t1 :: tag) = true)
      by (cbn [forallb]; now rewrite H1).
    rewrite forallb_forall in Hall. intros x Hx ->.
    specialize (Hall nl Hx). vm_compute in Hall. discriminate. }
  apply Hpy.
  do 6 (destruct tag as [|? tag];
        [cbn in E; injection E; intros; subst;
         try discriminate;
         try (exfalso; eapply Hword; [|reflexivity]; simpl; tauto);
         try reflexivity|]).
  cbn in E. injection E. intros. subst.
  exfalso. eapply Hword; [|reflexivity]. simpl; tauto.
Qed.





(** C10.  A block is extracted only behind an accepted opening: the fence,
    the optional tag [python], and a newline right after.  A fence followed
    on its own line by anything else starts no block (so the one-line text
    of a fence, [x=1] and a fence yields nothing), while the closing fence
    needs no newline before it. *)
Theorem opening_needs_newline :
  (forall t c : text,
      In c (extract_code_blocks t) ->
      exists pre o post, opening o /\ t = pre ++ o ++ c ++ fence ++ post) /\
  (forall (prev : option ascii) (x : ascii) (rest : text),
      x <> nl ->
      (forall b, x :: rest <> str "python" ++ nl :: b) ->
      match_here fence_re prev (fence ++ x :: rest) = None) /\
  extract_code_blocks (fence ++ str "x=1" ++ fence) = [] /\
  extract_code_blocks (fence ++ [nl] ++ str "x=1" ++ fence) = [str "x=1"].
Proof.
  split; [exact extract_In|]. split.
  - intros prev x rest Hx Hpy. rewrite match_here_fence.
    replace (open_body (fence ++ x :: rest)) with (@None text);
      [reflexivity|].
    symmetry. unfold open_body, open_python, open_plain.
    rewrite !strip_prefix_cat, !strip_prefix_app.
    destruct (strip_prefix (str "python" ++ [nl]) (x :: rest)) as [b|] eqn:E.
    + apply strip_prefix_Some in E. exfalso. apply (Hpy b).
      rewrite E. now rewrite <- app_assoc.
    + cbn [strip_prefix]. apply Ascii.eqb_neq in Hx. now rewrite Hx.
  - split; vm_compute; reflexivity.
Qed.

(** ** Properties of the scanner *)

(** C7, as the specification states it, fails both ways: the rule fires
    where [print] is the tail of another word and no print statement
    stands, and it does not fire on a print statement written with two
    spaces. *)
Lemma print_rule_is_textual :
  In msg_print (check_imports (str "sprint planning")) /\
  In msg_print (check_imports (str "blueprint _x")) /\
  check_imports (str "print  x") = [].
Proof. repeat split; vm_compute; tauto. Qed.

(** C7, amended.  The vintage-syntax rule fires exactly when the block
    holds, anywhere, the text [print], one space and a word character (a
    letter, a digit or an underscore), be it inside a longer word; the
    form with a parenthesis or with more than one space does not count.
    Its message comes at most once among the findings of a block, and
    every block holding [print x] is flagged with it. *)
Theorem print_rule :
  (forall code : text,
      In msg_print (check_imports code) <->
      exists pre c post,
        code = pre ++ str "print " ++ c :: post /\ is_word c = true) /\
  (forall code : text,
      count_occ text_eq_dec (block_findings code) msg_print <= 1) /\
  (forall pre post : text,
      In (str "Missing parentheses - the classic sign of vintage code")
         (block_findings (pre ++ str "print x" ++ post))).
Proof.
  assert (Hiff : forall code : text,
             In msg_print (check_imports code) <->
             matches print_re code = true).
  { intros code. unfold check_imports. rewrite scan_rules_In. split.
    - intros (p & Hin & Hm). unfold deprecated_patterns in Hin.
      repeat (destruct Hin as [Hin | Hin];
              [try (exfalso; injection Hin as _ Hin; vm_compute in Hin;
                    discriminate Hin)|]).
      + injection Hin as <-. exact Hm.
      + destruct Hin.
    - intros Hm. exists print_re. split; [|exact Hm].
      unfold deprecated_patterns. simpl. tauto. }
  split; [|split].
  - intros code. rewrite Hiff. apply matches_print.
  - exact block_findings_once.
  - intros pre post. unfold block_findings. apply in_or_app. left.
    apply Hiff, matches_print. exists pre, "x"%char, post.
    split; [|reflexivity].
    change (str "print x") with (str "print " ++ ["x"%char]).
    now rewrite <- app_assoc.
Qed.

(** C8.  The magic-number check finds the numeric tokens of the block: the
    words (maximal runs of word characters) made of three or more digits
    and nothing else, each occurrence in order of appearance.  If there is
    one or more it returns one finding that lists them, separated by a comma
    and a space, between a fixed prefix and a fixed suffix; otherwise it
    returns nothing.  A block where [12345] stands alone lists it; digits
    inside a longer identifier are not listed. *)
Theorem magic_numbers_finding :
  (forall code : text,
      check_for_magic_numbers code =
      match numeric_tokens code with
      | [] => []
      | tokens =>
          [str "Magic number(s) found: " ++ join (str ", ") tokens
             ++ str " - hope they're not port numbers"]
      end) /\
  (forall pre post : text,
      word_before (last_prev None pre) = false ->
      word_after post = false ->
      exists tokens,
        In (str "12345") tokens /\
        check_for_magic_numbers (pre ++ str "12345" ++ post) =
          [str "Magic number(s) found: " ++ join (str ", ") tokens
             ++ str " - hope they're not port numbers"]) /\
  check_for_magic_numbers (str "port8080 = x_12345; n = 42") = [] /\
  check_for_magic_numbers (str "t = 100 + 2000 + 100") =
    [str "Magic number(s) found: 100, 2000, 100 - hope they're not port numbers"].
Proof.
  assert (Hall : forall code : text,
             check_for_magic_numbers code =
             match numeric_tokens code with
             | [] => []
             | tokens =>
                 [magic_prefix ++ join (str ", ") tokens ++ magic_suffix]
             end).
  { intros code. unfold check_for_magic_numbers. rewrite findall_magic.
    now destruct (numeric_tokens code). }
  split; [exact Hall|]. split.
  - intros pre post Hpre Hpost.
    pose proof (numeric_token_In (str "12345") pre post eq_refl Hpre Hpost)
      as Hin.
    rewrite Hall.
    destruct (numeric_tokens (pre ++ str "12345" ++ post)) as [|t ts];
      [destruct Hin|].
    exists (t :: ts). split; [exact Hin | reflexivity].
  - split; vm_compute; reflexivity.
Qed.

(** ** Further properties of extraction *)

Lemma occurs_true (l s : text) : occurs l s = true -> contains l s.
Proof.
  induction s as [|x s IH]; cbn [occurs].
  - destruct (strip_prefix l []) as [r|] eqn:E; [|discriminate].
    intros _. apply strip_prefix_Some in E. now exists [], r.
  - destruct (strip_prefix l (x :: s)) as [r|] eqn:E.
    + intros _. apply strip_prefix_Some in E. now exists [], r.
    + intros H. apply contains_cons. now apply IH.
Qed.

Lemma contains_app_r (l s t : text) : contains l s -> contains l (s ++ t).
Proof.
  intros (a & b & ->). exists a, (b ++ t). now rewrite <- !app_assoc.
Qed.

(** What a match of the extraction pattern is made of. *)
Lemma match_here_fence_Some (prev : option ascii) (s : text) (m : found) :
  match_here fence_re prev s = Some m ->
  exists o c r,
    opening o /\ s = o ++ c ++ fence ++ r /\ m = (Some c, r) /\
    split_fence (c ++ fence ++ r) = Some (c, r).
Proof.
  rewrite match_here_fence.
  destruct (open_body s) as [b|] eqn:Eo; [|discriminate].
  destruct (split_fence b) as [[c r]|] eqn:Es; [|discriminate].
  intros H; injection H as <-.
  apply open_body_Some in Eo as (o & Ho & ->).
  pose proof (split_fence_Some b c r Es) as Hb. subst b.
  now exists o, c, r.
Qed.

Lemma item_fence (s : text) (c : text) (r : text) :
  item fence_re s (Some c, r) = c.
Proof. reflexivity. Qed.

(** X1.  No extracted block holds a triple backtick, nor ends in backticks
    that the closing fence would complete to one: a block always stops at
    the first fence behind its opening. *)
Theorem blocks_hold_no_fence (t : text) :
  Forall (fun c => fence_free c = true /\ occurs fence c = false)
    (extract_code_blocks t).
Proof.
  apply Forall_forall. intros c Hin.
  apply findall_from_In in Hin as (pre & suf & m & _ & Hm & ->).
  apply match_here_fence_Some in Hm as (o & c & r & _ & _ & -> & Hs).
  rewrite item_fence.
  pose proof (split_fence_first _ c r Hs) as Hfirst.
  assert (Hfree : occurs fence (c ++ str "``") = false).
  { destruct (occurs fence (c ++ str "``")) eqn:E; [|reflexivity].
    exfalso. apply Hfirst. now apply occurs_true. }
  split.
  - unfold fence_free. now rewrite Hfree.
  - destruct (occurs fence c) eqn:E; [|reflexivity].
    exfalso. apply Hfirst. apply contains_app_r. now apply occurs_true.
Qed.

Lemma footprint_cons (b : text) (l : list text) :
  footprint (b :: l) = length b + 7 + footprint l.
Proof. reflexivity. Qed.

Lemma findall_fence_footprint (s : text) :
  forall (skip : nat) (prev : option ascii),
    footprint (findall_from fence_re skip prev s) <= length s - skip.
Proof.
  induction s as [|x s IH]; intros skip prev.
  - destruct skip; cbn [findall_from]; [|unfold footprint; simpl; lia].
    rewrite match_here_fence. unfold footprint. simpl. lia.
  - destruct skip as [|n]; cbn [findall_from].
    + destruct (match_here fence_re prev (x :: s)) as [m|] eqn:Em.
      * apply match_here_fence_Some in Em as (o & c & r & Ho & Hs & -> & _).
        rewrite item_fence. cbn [snd]. rewrite footprint_cons.
        specialize (IH (length (consumed (x :: s) r) - 1) (Some x)).
        assert (Hlen : length (consumed (x :: s) r)
                       = length o + length c + 3).
        { unfold consumed. rewrite Hs.
          replace (o ++ c ++ fence ++ r) with ((o ++ c ++ fence) ++ r)
            by now rewrite <- !app_assoc.
          rewrite firstn_cut, !length_app.
          change (length fence) with 3. lia. }
        assert (Ho4 : 4 <= length o)
          by (destruct Ho as [-> | ->]; simpl; lia).
        apply (f_equal (@length ascii)) in Hs.
        rewrite !length_app in Hs. change (length fence) with 3 in Hs.
        cbn [length] in Hs.
        rewrite Hlen in IH |- *. cbn [length]. lia.
      * specialize (IH 0 (Some x)). cbn [length]. lia.
    + specialize (IH n (Some x)). cbn [length]. lia.
Qed.

(** X2.  The blocks are cut from the text without overlap: their lengths,
    with the seven characters of fences and newline that each block needs
    around it, add up to no more than the length of the text. *)
Theorem blocks_fit_in_text (t : text) :
  footprint (extract_code_blocks t) <= length t /\
  7 * length (extract_code_blocks t) <= length t.
Proof.
  pose proof (findall_fence_footprint t 0 None) as H.
  fold (findall fence_re t) in H. fold (extract_code_blocks t) in H.
  rewrite Nat.sub_0_r in H. split; [exact H|].
  assert (Hcount : forall l : list text, 7 * length l <= footprint l).
  { induction l as [|b l IHl]; [simpl; lia|].
    rewrite footprint_cons. cbn [length]. lia. }
  specialize (Hcount (extract_code_blocks t)). lia.
Qed.

Lemma open_body_needs_fence (s : text) :
  strip_prefix fence s = None -> open_body s = None.
Proof.
  intros H. unfold open_body, open_python, open_plain.
  now rewrite !strip_prefix_cat, H.
Qed.

(** Positions where no match starts are passed over. *)
Lemma extract_skip_misses (pre s : text) :
  (forall a b, pre = a ++ b -> b <> [] ->
               match_here fence_re None (b ++ s) = None) ->
  extract_code_blocks (pre ++ s) = extract_code_blocks s.
Proof.
  induction pre as [|x pre IH]; intros H; [reflexivity|].
  unfold extract_code_blocks, findall in *. cbn [app].
  rewrite findall_from_miss.
  - rewrite (findall_from_prev fence_re match_here_fence_prev _ 0 (Some x) None).
    apply IH. intros a b Hab Hb. apply (H (x :: a) b); [now rewrite Hab | exact Hb].
  - apply (H [] (x :: pre)); [reflexivity | discriminate].
Qed.

(** A fence that starts inside [b], with a fence right behind [b], shows
    in [b] followed by two backticks. *)
Lemma fence_across (b rest : text) (y : text) :
  b <> [] ->
  strip_prefix fence (b ++ fence ++ rest) = Some y ->
  contains fence (b ++ str "``").
Proof.
  intros Hb H. apply strip_prefix_Some in H.
  destruct b as [|b1 [|b2 [|b3 b]]]; [congruence| | |];
    injection H; intros; subst.
  - now exists [], [].
  - now exists [], ["`"%char].
  - now exists [], (b ++ str "``").
Qed.

Lemma no_fence_in_suffix (x a b rest : text) :
  fence_free x = true -> x = a ++ b -> b <> [] ->
  strip_prefix fence (b ++ fence ++ rest) = None.
Proof.
  intros Hx -> Hb.
  destruct (strip_prefix fence (b ++ fence ++ rest)) as [y|] eqn:E;
    [|reflexivity].
  exfalso. apply (fence_free_first _ Hx).
  destruct (fence_across b rest y Hb E) as (u & v & Huv).
  exists (a ++ u), v. now rewrite <- !app_assoc, Huv.
Qed.

(** X3.  A fence with a tag other than [python] opens nothing, but the fence
    that closes its block, when a newline follows it, is taken for an
    opening: the text behind it, up to the next fence, is extracted in
    place of the block. *)
Theorem other_tag_shifts_block (tag c d r : text) :
  language_tag tag ->
  tag <> str "python" ->
  fence_free (tag ++ nl :: c) = true ->
  fence_free d = true ->
  extract_code_blocks
    ((fence ++ tag ++ nl :: c ++ fence) ++ (nl :: d ++ fence) ++ r) =
  d :: extract_code_blocks r.
Proof.
  intros Htag Hpy Hc Hd.
  replace ((fence ++ tag ++ nl :: c ++ fence) ++ (nl :: d ++ fence) ++ r)
    with ((fence ++ tag ++ nl :: c) ++ open_plain ++ d ++ fence ++ r)
    by (unfold open_plain; rewrite <- !app_assoc; cbn [app];
        rewrite <- !app_assoc; reflexivity).
  rewrite extract_skip_misses.
  - now apply extract_first_fence; [left|].
  - intros a b Hab Hb.
    destruct a as [|a1 a].
    + cbn [app] in Hab. subst b. rewrite <- !app_assoc. cbn [app].
      now apply other_tag_no_block.
    + rewrite match_here_fence, open_body_needs_fence; [reflexivity|].
      destruct Htag as [Hne Hw]. destruct tag as [|t1 tag]; [congruence|].
      cbn [forallb] in Hw. apply andb_true_iff in Hw as [Ht1 _].
      assert (Hbt : Ascii.eqb t1 "`" = false) by (revert Ht1; by_cases_on t1).
      unfold open_plain. rewrite <- app_assoc.
      destruct a as [|a2 [|a3 a]].
      * injection Hab as _ <-.
        cbn [app strip_prefix fence str list_ascii_of_string].
        now rewrite !Ascii.eqb_refl, Hbt.
      * injection Hab as _ _ <-.
        cbn [app strip_prefix fence str list_ascii_of_string].
        now rewrite !Ascii.eqb_refl, Hbt.
      * injection Hab as _ _ _ Hab.
        now apply (no_fence_in_suffix ((t1 :: tag) ++ nl :: c) a b).
Qed.

Lemma other_tag_shifts_block_witness :
  extract_code_blocks
    ((fence ++ str "js" ++ nl :: (str "let x = 1;" ++ [nl]) ++ fence)
       ++ (nl :: (str "Then run it." ++ [nl]) ++ fence) ++ str " Done.") =
  (str "Then run it." ++ [nl]) :: extract_code_blocks (str " Done.").
Proof.
  apply (other_tag_shifts_block (str "js") (str "let x = 1;" ++ [nl])
           (str "Then run it." ++ [nl]) (str " Done.")).
  - split; [discriminate | reflexivity].
  - discriminate.
  - reflexivity.
  - reflexivity.
Defined.

(** ** Further properties of the scanner *)

Lemma rule_message (m : text) (p : regex) (code : text) :
  In (p, m) deprecated_patterns ->
  (forall p', In (p', m) deprecated_patterns -> p' = p) ->
  (In m (check_imports code) <-> matches p code = true).
Proof.
  intros Hin Honly. unfold check_imports. rewrite scan_rules_In. split.
  - intros (p' & Hp' & Hm). now rewrite <- (Honly p' Hp').
  - intros Hm. now exists p.
Qed.

(** X4.  Each of the four import rules looks for its text anywhere in the
    block: its message is among the findings exactly when the block holds
    the text as a substring, be it in a comment, in a string or at the head
    of a longer name. *)
Theorem import_rules_are_substrings (code : text) :
  (In (str "ttk is still fine, but are YOU?") (check_imports code) <->
     contains (str "from tkinter import ttk") code) /\
  (In (str "Python 2 called, it wants its imports back") (check_imports code)
     <-> contains (str "import urllib2") code) /\
  (In (str "This import is so old it has a pension") (check_imports code) <->
     contains (str "from StringIO import") code) /\
  (In (str "MD5? More like M-Deprecated") (check_imports code) <->
     contains (str "import md5") code).
Proof.
  repeat split; intros H.
  all: first
    [ apply matches_lit;
      eapply rule_message; [| |exact H]; [simpl; tauto | only_rule]
    | apply matches_lit in H;
      eapply rule_message; [| |exact H]; [simpl; tauto | only_rule] ].
Qed.

Lemma three_digits_contains (a b : text) (x y z : ascii) :
  is_digit x = true -> is_digit y = true -> is_digit z = true ->
  three_digits (a ++ x :: y :: z :: b) = true.
Proof.
  intros Hx Hy Hz. induction a as [|c a IH].
  - cbn [app three_digits]. now rewrite Hx, Hy, Hz.
  - cbn [app three_digits]. rewrite IH. apply orb_true_r.
Qed.

(** What the magic-number pattern finds is a run of three or more digits
    of the text. *)
Lemma findall_magic_In (t code : text) :
  In t (findall magic_re code) ->
  contains t code /\ forallb is_digit t = true /\ 3 <= length t.
Proof.
  intros H. apply findall_from_In in H as (pre & suf & m & -> & Hm & ->).
  rewrite match_here_magic in Hm.
  destruct (at_boundary _ suf); [|discriminate]. cbn [andb] in Hm.
  destruct (3 <=? length (fst (span is_digit suf))) eqn:E; [|discriminate].
  destruct (negb _); [|discriminate].
  injection Hm as <-. apply Nat.leb_le in E.
  unfold item. cbn [has_group magic_re orb snd]. unfold consumed.
  pose proof (span_app is_digit suf) as Hs.
  pose proof (span_all is_digit suf) as Hd.
  destruct (span is_digit suf) as [ds rest]. cbn [fst snd] in *.
  subst suf. rewrite firstn_cut.
  split; [now exists pre, rest|]. now split.
Qed.

(** X5.  A block without three digits in a row has no magic-number finding:
    numbers of one or two digits are never reported. *)
Theorem short_numbers_pass (code : text) :
  three_digits code = false -> check_for_magic_numbers code = [].
Proof.
  intros H. unfold check_for_magic_numbers.
  destruct (findall magic_re code) as [|t ts] eqn:E; [reflexivity|].
  exfalso.
  destruct (findall_magic_In t code) as ((a & b & Hc) & Hd & Hl).
  { rewrite E. now left. }
  destruct t as [|x [|y [|z t]]]; simpl in Hl; try lia.
  cbn [forallb] in Hd.
  apply andb_true_iff in Hd as [Hx Hd].
  apply andb_true_iff in Hd as [Hy Hd].
  apply andb_true_iff in Hd as [Hz _].
  rewrite Hc in H. cbn [app] in H.
  now rewrite (three_digits_contains a (t ++ b) x y z Hx Hy Hz) in H.
Qed.

Lemma short_numbers_pass_witness :
  check_for_magic_numbers (str "for i in range(10): total += 42 * i") = [].
Proof.
  apply (short_numbers_pass (str "for i in range(10): total += 42 * i")).
  reflexivity.
Defined.

(** ** Further properties of the verdict *)

Lemma block_issues_nil (code_blocks : list text) :
  forall i : nat,
    block_issues i code_blocks = [] <->
    Forall (fun b => block_findings b = []) code_blocks.
Proof.
  induction code_blocks as [|b l IH]; intros i; cbn [block_issues].
  - split; [constructor | reflexivity].
  - destruct (block_findings b) as [|f fs] eqn:E.
    + rewrite IH. split.
      * intros H. now constructor.
      * intros H. now inversion H.
    + split; [discriminate|]. intros H. inversion H. congruence.
Qed.

Lemma all_issues_nil (now : datetime) (code_blocks : list text)
    (url : option text) :
  all_issues now code_blocks url = Ok [] <->
  Forall (fun b => block_findings b = []) code_blocks /\
  url_issues (year now) url = Ok [].
Proof.
  unfold all_issues.
  destruct (url_issues (year now) url) as [extra|e].
  - rewrite <- (block_issues_nil code_blocks 1). split.
    + intros H. injection H as H. apply app_eq_nil in H as [-> ->].
      now split.
    + intros [-> H]. now injection H as ->.
  - split; [discriminate|]. intros [_ H]. discriminate.
Qed.

(** X6.  The outcome is decided by a table.  With a block extracted and a
    recognized URL whose first identifier has more than 4300 digits the
    call raises ValueError.  In every other case it returns, and the status
    is SUSPICIOUS exactly when no block is extracted; MAYBE_OK exactly when
    a block is extracted, no block has a finding and the URL heuristic adds
    nothing; PROBABLY_OUTDATED in what remains. *)
Theorem status_table (now : datetime) (answer_text : text)
    (url : option text) :
  let blocks := extract_code_blocks answer_text in
  let clean :=
    Forall (fun b => block_findings b = []) blocks /\
    url_issues (year now) url = Ok [] in
  if has_blocks answer_text && long_identifier url
  then validate_stackoverflow_answer now answer_text url = Raise ValueError
  else
    exists v : dict,
      validate_stackoverflow_answer now answer_text url = Ok v /\
      (get "status" v = Some SUSPICIOUS <-> blocks = []) /\
      (get "status" v = Some MAYBE_OK <-> blocks <> [] /\ clean) /\
      (get "status" v = Some PROBABLY_OUTDATED <-> blocks <> [] /\ ~ clean).
Proof.
  intros blocks clean. unfold has_blocks, validate_stackoverflow_answer.
  fold blocks.
  pose proof (all_issues_nil now blocks url) as Hnil. fold clean in Hnil.
  destruct blocks as [|b bs] eqn:Eb; cbn [andb].
  - eexists. split; [reflexivity|].
    cbn [get String.eqb Ascii.eqb Bool.eqb].
    split; [split; reflexivity|]. split; split.
    + discriminate.
    + intros [H _]. congruence.
    + discriminate.
    + intros [H _]. congruence.
  - destruct (long_identifier url) eqn:El;
      [unfold all_issues; now rewrite (url_issues_long _ _ El)|].
    destruct (all_issues now (b :: bs) url) as [issues|e] eqn:Ea.
    + exists (verdict_of issues). split; [reflexivity|].
      destruct issues as [|i0 rest];
        cbn [verdict_of get String.eqb Ascii.eqb Bool.eqb].
      * split; [split; discriminate|]. split; split.
        -- intros _. split; [discriminate | now apply Hnil].
        -- reflexivity.
        -- discriminate.
        -- intros [_ Hc]. exfalso. apply Hc. now apply Hnil.
      * split; [split; discriminate|]. split; split.
        -- discriminate.
        -- intros [_ Hc]. apply Hnil in Hc. discriminate.
        -- intros _. split; [discriminate|].
           intros Hc. apply Hnil in Hc. discriminate.
        -- reflexivity.
    + exfalso. unfold all_issues in Ea.
      rewrite (url_issues_short _ _ El) in Ea. discriminate.
Qed.

Lemma block_issues_In (x : text) (code_blocks : list text) :
  forall i : nat,
    In x (block_issues i code_blocks) <->
    exists k code,
      nth_error code_blocks k = Some code /\
      block_findings code <> [] /\
      x = block_line (i + k) (block_findings code).
Proof.
  induction code_blocks as [|b l IH]; intros i; cbn [block_issues].
  - split; [contradiction|]. intros (k & code & H & _). now destruct k.
  - assert (Hshift : (exists k code,
                nth_error l k = Some code /\ block_findings code <> [] /\
                x = block_line (S i + k) (block_findings code)) <->
            (exists k code,
                nth_error (b :: l) (S k) = Some code /\
                block_findings code <> [] /\
                x = block_line (i + S k) (block_findings code))).
    { split; intros (k & code & H1 & H2 & H3); exists k, code;
        (split; [exact H1|]); (split; [exact H2|]);
        now replace (i + S k) with (S i + k) in * by lia. }
    destruct (block_findings b) as [|f fs] eqn:E.
    + rewrite IH, Hshift. split.
      * intros (k & code & H). now exists (S k), code.
      * intros ([|k] & code & H1 & H2 & H3).
        -- injection H1 as <-. congruence.
        -- now exists k, code.
    + cbn [In]. rewrite IH, Hshift. split.
      * intros [<- | (k & code & H)].
        -- exists 0, b. rewrite Nat.add_0_r, E.
           split; [reflexivity|]. split; [discriminate|reflexivity].
        -- now exists (S k), code.
      * intros ([|k] & code & H1 & H2 & H3).
        -- left. injection H1 as <-. rewrite Nat.add_0_r, E in H3.
           now rewrite H3.
        -- right. now exists k, code.
Qed.

(** X7.  The summary of a block carries the position the block has in the
    text, counted from 1 over all extracted blocks: a block without
    findings gets no line but keeps its number. *)
Theorem block_numbers_are_positions (answer_text x : text) :
  In x (block_issues 1 (extract_code_blocks answer_text)) <->
  exists k code,
    nth_error (extract_code_blocks answer_text) k = Some code /\
    block_findings code <> [] /\
    x = str "Block " ++ str_of_int (Z.of_nat (k + 1)) ++ str ": "
          ++ join (str " | ") (block_findings code).
Proof.
  rewrite block_issues_In. unfold block_line.
  split; intros (k & code & H1 & H2 & H3); exists k, code;
    (split; [exact H1|]); (split; [exact H2|]);
    now replace (k + 1) with (1 + k) in * by lia.
Qed.

Lemma join_cons (sep x : text) (l : list text) :
  join sep (x :: l) = x ++ flat_map (fun i => sep ++ i) l.
Proof.
  revert x; induction l as [|y l IH]; intros x.
  - simpl. now rewrite app_nil_r.
  - change (join sep (x :: y :: l)) with (x ++ sep ++ join sep (y :: l)).
    rewrite IH. cbn [flat_map]. now rewrite <- app_assoc.
Qed.

(** X8.  With issues to report, the message is the header followed by one
    line per issue, in order, each opened by a newline, a dash and a
    space. *)
Theorem outdated_message (now : datetime) (answer_text : text)
    (url : option text) (issues : list text) :
  extract_code_blocks answer_text <> [] ->
  all_issues now (extract_code_blocks answer_text) url = Ok issues ->
  issues <> [] ->
  validate_stackoverflow_answer now answer_text url =
    Ok [ ("status"%string, PROBABLY_OUTDATED);
         ("message"%string,
           str "Potential issues found:"
             ++ flat_map (fun issue => nl :: str "- " ++ issue) issues);
         ("advice"%string,
           str "Check library docs instead. Or just rewrite it yourself like a real developer.") ].
Proof.
  intros Hne Hall Hissues.
  rewrite (validate_blocks now answer_text url Hne), Hall.
  destruct issues as [|i0 rest]; [congruence|].
  unfold verdict_of. now rewrite join_cons.
Qed.

Lemma outdated_message_witness :
  validate_stackoverflow_answer noon two_blocks (Some old_question) =
    Ok [ ("status"%string, PROBABLY_OUTDATED);
         ("message"%string,
           str "Potential issues found:"
             ++ flat_map (fun issue => nl :: str "- " ++ issue)
                  [ str "Block 1: MD5? More like M-Deprecated";
                    str "Question ID 123456 looks ancient (like before 2019)" ]);
         ("advice"%string,
           str "Check library docs instead. Or just rewrite it yourself like a real developer.") ].
Proof.
  apply (outdated_message noon two_blocks (Some old_question)
           [ str "Block 1: MD5? More like M-Deprecated";
             str "Question ID 123456 looks ancient (like before 2019)" ]).
  - vm_compute. discriminate.
  - vm_compute. reflexivity.
  - discriminate.
Defined.

Lemma url_issues_passed (current_year : Z) (url : option text) :
  passed_over url = true -> url_issues current_year url = Ok [].
Proof.
  destruct url as [u|]; [|reflexivity]. cbn [passed_over url_issues].
  intros H. apply negb_true_iff in H. rewrite H. now rewrite andb_false_r.
Qed.

(** X9.  Without a URL of the recognized shape -- no URL, the empty string,
    another site, an identifier that is not all digits -- the verdict
    depends neither on the URL nor on the clock. *)
Theorem passed_over_url (now1 now2 : datetime) (answer_text : text)
    (url1 url2 : option text) :
  passed_over url1 = true ->
  passed_over url2 = true ->
  validate_stackoverflow_answer now1 answer_text url1 =
  validate_stackoverflow_answer now2 answer_text url2.
Proof.
  intros H1 H2. unfold validate_stackoverflow_answer, all_issues.
  now rewrite (url_issues_passed (year now1) url1 H1),
              (url_issues_passed (year now2) url2 H2).
Qed.

Lemma passed_over_url_witness :
  validate_stackoverflow_answer noon two_blocks
    (Some (str "https://superuser.com/questions/123/old-question")) =
  validate_stackoverflow_answer long_ago two_blocks (Some []).
Proof.
  apply (passed_over_url noon long_ago two_blocks
           (Some (str "https://superuser.com/questions/123/old-question"))
           (Some [])).
  - vm_compute. reflexivity.
  - reflexivity.
Defined.

Lemma all_digits_true (ds : text) :
  all_digits ds = true -> ds <> [] /\ forallb is_digit ds = true.
Proof. destruct ds; [discriminate|]. intros H. split; [discriminate|exact H]. Qed.

Lemma true_all_digits (ds : text) :
  ds <> [] -> forallb is_digit ds = true -> all_digits ds = true.
Proof. destruct ds; [congruence|]. now intros _ H. Qed.

(** The second URL pattern reads the first segment [questions/], digits,
    slash of the URL. *)
Lemma search_qid_first (pre ds rest : text) :
  q_free pre = true -> all_digits ds = true ->
  search qid_re (pre ++ str "questions/" ++ ds ++ "/"%char :: rest) =
  Some (Some ds, rest).
Proof.
  intros Hpre Hds. apply all_digits_true in Hds as [Hne Hd].
  unfold search. apply search_from_first.
  - intros a b Hab Hb. rewrite match_here_qid.
    replace (qid_at (b ++ str "questions/" ++ ds ++ "/"%char :: rest))
      with (@None (text * text)); [reflexivity|].
    destruct b as [|x b]; [congruence|].
    assert (Hx : Ascii.eqb x "q" = false).
    { unfold q_free in Hpre. rewrite Hab, forallb_app in Hpre.
      apply andb_true_iff in Hpre as [_ Hpre]. cbn [forallb] in Hpre.
      apply andb_true_iff in Hpre as [Hpre _]. now apply negb_true_iff. }
    unfold qid_at. cbn [app str list_ascii_of_string strip_prefix].
    now rewrite Hx.
  - rewrite match_here_qid. unfold qid_at.
    now rewrite strip_prefix_app, (id_segment_digits ds rest Hne Hd).
Qed.

(** X10.  The identifier that is compared with the threshold is read from
    the first segment [questions/], digits, slash of the URL, which need
    not be the one behind [stackoverflow.com]: when another such segment
    comes first, its number (of at most 4300 digits, for [int] to convert
    it) decides and the number of the recognized segment is not looked
    at. *)
Theorem first_segment_decides (now : datetime) (answer_text : text)
    (pre ds1 mid ds2 post : text) :
  extract_code_blocks answer_text <> [] ->
  q_free pre = true ->
  all_digits ds1 = true ->
  length ds1 <= 4300 ->
  all_digits ds2 = true ->
  validate_stackoverflow_answer now answer_text
    (Some (pre ++ str "questions/" ++ ds1 ++ "/"%char :: mid
             ++ str "stackoverflow.com/questions/" ++ ds2 ++ "/"%char :: post)) =
  Ok (verdict_of
        (block_issues 1 (extract_code_blocks answer_text) ++
         if (decimal_value ds1 <? 1000000)%Z
         then [str "Question ID " ++ str_of_int (decimal_value ds1)
                 ++ str " looks ancient (like before "
                 ++ str_of_int (year now - 5) ++ str ")"]
         else [])).
Proof.
  intros Hne Hpre Hd1 Hlen Hd2.
  set (u := pre ++ str "questions/" ++ ds1 ++ "/"%char :: mid
              ++ str "stackoverflow.com/questions/" ++ ds2 ++ "/"%char :: post).
  rewrite (validate_blocks now answer_text (Some u) Hne).
  assert (Hshape : matches url_re u = true).
  { apply url_shape.
    exists (pre ++ str "questions/" ++ ds1 ++ "/"%char :: mid), ds2, post.
    apply all_digits_true in Hd2 as [Hn2 Hf2].
    split; [|now split]. unfold u.
    rewrite <- !app_assoc. cbn [app]. now rewrite <- ?app_assoc. }
  pose proof (search_qid_first pre ds1
                (mid ++ str "stackoverflow.com/questions/" ++ ds2
                   ++ "/"%char :: post) Hpre Hd1) as Hsearch.
  fold u in Hsearch.
  apply all_digits_true in Hd1 as [Hn1 Hf1].
  unfold all_issues, url_issues.
  rewrite Hshape, (matches_url_truthy u Hshape), Hsearch.
  unfold int_group1, group1. cbn [fst].
  rewrite (int_digits ds1 Hn1 Hf1).
  replace (int_max_str_digits <? length ds1) with false
    by (symmetry; apply Nat.ltb_ge; exact Hlen).
  unfold threshold.
  now destruct (decimal_value ds1 <? 1000000)%Z.
Qed.

Lemma first_segment_decides_witness :
  validate_stackoverflow_answer noon (fenced "python" "x = 1")
    (Some (str "https://example.com/" ++ str "questions/" ++ str "42"
             ++ "/"%char :: str "?from=https://"
             ++ str "stackoverflow.com/questions/" ++ str "99999999"
             ++ "/"%char :: str "title")) =
  Ok (verdict_of
        (block_issues 1 (extract_code_blocks (fenced "python" "x = 1")) ++
         if (decimal_value (str "42") <? 1000000)%Z
         then [str "Question ID " ++ str_of_int (decimal_value (str "42"))
                 ++ str " looks ancient (like before "
                 ++ str_of_int (year noon - 5) ++ str ")"]
         else [])).
Proof.
  apply (first_segment_decides noon (fenced "python" "x = 1")
           (str "https://example.com/") (str "42") (str "?from=https://")
           (str "99999999") (str "title")).
  - vm_compute. discriminate.
  - reflexivity.
  - reflexivity.
  - vm_compute. lia.
  - reflexivity.
Defined.

(** X11.  A URL has the recognized shape exactly when it holds, anywhere,
    [stackoverflow.com/questions/], one or more digits and a slash; what
    stands before (a scheme, a longer host name) and after is free, and a
    URL that ends with the digits is not recognized. *)
Theorem recognized_anywhere (u : text) :
  matches url_re u = true <->
  exists pre ds post,
    u = pre ++ str "stackoverflow.com/questions/" ++ ds ++ "/"%char :: post /\
    all_digits ds = true.
Proof.
  rewrite url_shape. split.
  - intros (pre & ds & post & Hu & Hne & Hd).
    exists pre, ds, post. split; [exact Hu | now apply true_all_digits].
  - intros (pre & ds & post & Hu & Hd).
    apply all_digits_true in Hd as [Hne Hd]. now exists pre, ds, post.
Qed.

(** ** Properties of the command line *)

(** When the validator returns, it returns a dict with the keys [main]
    reads. *)
Lemma validate_keys (now : datetime) (answer_text : text)
    (url : option text) :
  has_blocks answer_text && long_identifier url = false ->
  exists v status message,
    validate_stackoverflow_answer now answer_text url = Ok v /\
    get "status" v = Some status /\
    get "message" v = Some message /\
    (get "advice" v = None <-> status = SUSPICIOUS).
Proof.
  rewrite validate_cases. unfold has_blocks.
  destruct (extract_code_blocks answer_text) as [|b blocks]; cbn [andb].
  - intros _. do 3 eexists. split; [reflexivity|].
    cbn [get String.eqb Ascii.eqb Bool.eqb]. repeat split; reflexivity.
  - intros ->.
    destruct (block_issues 1 (b :: blocks) ++ url_extra (year now) url);
      do 3 eexists; (split; [reflexivity|]);
      cbn [verdict_of get String.eqb Ascii.eqb Bool.eqb];
      (split; [reflexivity|]); (split; [reflexivity|]);
      split; intros H; discriminate H.
Qed.

Lemma report_prints (w : world) (out content : text) :
  has_blocks content && long_identifier (url_argument (argv w)) = false ->
  exists v status message,
    validate_stackoverflow_answer (clock w) content (url_argument (argv w))
      = Ok v /\
    get "status" v = Some status /\
    get "message" v = Some message /\
    (get "advice" v = None <-> status = SUSPICIOUS) /\
    report w out content =
      {| stdout :=
           out ++ (nl :: str "Verdict: " ++ status ++ [nl])
             ++ (message ++ [nl])
             ++ match get "advice" v with
                | Some advice => nl :: str "Advice: " ++ advice ++ [nl]
                | None => []
                end;
         raised := None |}.
Proof.
  intros Hshort.
  destruct (validate_keys (clock w) content (url_argument (argv w)) Hshort)
    as (v & status & message & Hv & Hs & Hm & Ha).
  exists v, status, message. repeat (split; [assumption|]).
  unfold report, print_verdict, print. rewrite Hv, Hs, Hm.
  destruct (get "advice" v) as [advice|]; f_equal;
    cbn [app]; rewrite <- ?app_assoc; cbn [app];
    rewrite <- ?app_assoc, ?app_nil_r; reflexivity.
Qed.

Lemma main_reads (w : world) :
  main w =
  match answer_read w with
  | Some content => report w (preamble w) content
  | None => {| stdout := banner; raised := Some ReadError |}
  end.
Proof.
  unfold main, answer_read, preamble.
  destruct (argv w) as [|a0 [|path more]]; try reflexivity.
Qed.

Lemma report_raises (w : world) (out content : text) :
  has_blocks content && long_identifier (url_argument (argv w)) = true ->
  report w out content =
    {| stdout := out; raised := Some (Validator ValueError) |}.
Proof.
  intros H. apply andb_true_iff in H as [Hb Hl].
  unfold report. rewrite validate_cases, Hl.
  unfold has_blocks in Hb.
  now destruct (extract_code_blocks content).
Qed.

(** X12.  The command fails in two cases and no other.  A file argument is
    given and the file cannot be read: it has printed the banner and
    nothing else.  Or the answer holds a block and the URL argument is a
    recognized URL whose first identifier has more than 4300 digits: the
    ValueError of the validator ends it before any verdict line.  In every
    other case it ends without an exception. *)
Theorem main_failures (w : world) :
  match answer_read w with
  | None => main w = {| stdout := banner; raised := Some ReadError |}
  | Some content =>
      if has_blocks content && long_identifier (url_argument (argv w))
      then main w =
           {| stdout := preamble w; raised := Some (Validator ValueError) |}
      else raised (main w) = None
  end.
Proof.
  rewrite main_reads. destruct (answer_read w) as [content|]; [|reflexivity].
  destruct (has_blocks content && long_identifier (url_argument (argv w)))
    eqn:E.
  - now apply report_raises.
  - destruct (report_prints w (preamble w) content E)
      as (v & status & message & _ & _ & _ & _ & ->).
    reflexivity.
Qed.

(** X13.  Once the answer is read, and unless the validator raises (a
    block in the answer and a URL argument with an identifier of more than
    4300 digits), the command prints, after the banner (and the prompt
    when it reads standard input): an empty line and the status, the
    message, and -- exactly when the status is not SUSPICIOUS -- an empty
    line and the advice.  The URL is the second argument, if there is
    one. *)
Theorem main_prints_verdict (w : world) (content : text) :
  answer_read w = Some content ->
  has_blocks content && long_identifier (url_argument (argv w)) = false ->
  exists v status message,
    validate_stackoverflow_answer (clock w) content (url_argument (argv w))
      = Ok v /\
    get "status" v = Some status /\
    get "message" v = Some message /\
    (get "advice" v = None <-> status = SUSPICIOUS) /\
    stdout (main w) =
      preamble w ++ (nl :: str "Verdict: " ++ status ++ [nl])
        ++ (message ++ [nl])
        ++ match get "advice" v with
           | Some advice => nl :: str "Advice: " ++ advice ++ [nl]
           | None => []
           end.
Proof.
  intros Hread Hshort. rewrite main_reads, Hread.
  destruct (report_prints w (preamble w) content Hshort)
    as (v & status & message & Hv & Hs & Hm & Ha & ->).
  now exists v, status, message.
Qed.

Lemma main_prints_verdict_witness :
  exists v status message,
    validate_stackoverflow_answer noon (fenced "python" "import md5")
      (Some old_question) = Ok v /\
    get "status" v = Some status /\
    get "message" v = Some message /\
    (get "advice" v = None <-> status = SUSPICIOUS) /\
    stdout (main (on_file (str "answer.md") (fenced "python" "import md5")
                    [old_question; str "ignored"])) =
      banner ++ (nl :: str "Verdict: " ++ status ++ [nl])
        ++ (message ++ [nl])
        ++ match get "advice" v with
           | Some advice => nl :: str "Advice: " ++ advice ++ [nl]
           | None => []
           end.
Proof.
  apply (main_prints_verdict
           (on_file (str "answer.md") (fenced "python" "import md5")
              [old_question; str "ignored"])
           (fenced "python" "import md5")).
  - vm_compute. reflexivity.
  - vm_compute. reflexivity.
Defined.

(** X14.  An answer without a code block -- an empty file, empty standard
    input, prose -- gives the same three lines after the banner whatever
    the URL argument and the clock: the SUSPICIOUS status, its message and
    no advice. *)
Theorem main_without_code (w : world) (content : text) :
  answer_read w = Some content ->
  extract_code_blocks content = [] ->
  main w =
    {| stdout :=
         preamble w ++ nl :: str "Verdict: SUSPICIOUS" ++ nl
           :: str "No code blocks found. Probably just philosophical advice about programming."
           ++ [nl];
       raised := None |}.
Proof.
  intros Hread Hnone. rewrite main_reads, Hread.
  unfold report, validate_stackoverflow_answer. rewrite Hnone.
  unfold print_verdict, print. cbn [get String.eqb Ascii.eqb Bool.eqb].
  f_equal. rewrite <- !app_assoc. reflexivity.
Qed.

Lemma main_without_code_witness :
  main (typed_in []) =
    {| stdout :=
         preamble (typed_in []) ++ nl :: str "Verdict: SUSPICIOUS" ++ nl
           :: str "No code blocks found. Probably just philosophical advice about programming."
           ++ [nl];
       raised := None |}.
Proof.
  apply (main_without_code (typed_in []) []); reflexivity.
Defined.
